(** * fsquad.c: a solution of the firing squad synchronization problem

    Shallow embedding of [src/fsquad.c] (the machine record, [update_state],
    the initialisation and the main loop of [main]) and the properties of
    the synchronous automaton that the specification states about it.

    Conventions of the embedding.
    - A C [int] is a [Z]; the only arithmetic the program performs on machine
      fields is [timer--], whose signed overflow is modelled as a failure.
    - [machines] and [machines_old] are lists of [N] records: the entries
      [0..N-1] of the two global pointer arrays that [main] allocates.
      Dereferencing any other entry (index [-1], or an entry never allocated)
      is a failure: [deref] returns [None].
    - The local [dir] of [update_state] is not initialised and several paths
      store it into [message_direction] without assigning it first.  Its
      initial value is a parameter [dir0] of [update_state]; the driver takes
      a function giving this value for every step and position, and every
      general theorem holds for all such functions. *)

From Stdlib Require Import ZArith Lia Bool ZifyBool Ascii String
  DecimalString.
From stdpp Require Import base option list strings.

Open Scope Z_scope.

Module Fsquad.

(** ** Constants of the program *)

Definition DEFAULT_LENGTH : Z := 8.
Definition MAX_LENGTH : Z := 1024.

Definition TRUE : Z := 1.
Definition FALSE : Z := 0.

Definition RED : Z := 0.
Definition BLACK : Z := 1.

Definition PASSIVE : Z := 0.
Definition ACTIVE : Z := 1.

Definition GENERAL : Z := 0.
Definition SOLDIER : Z := 1.

Definition NO_MSG : Z := 0.
Definition TEST_MSG : Z := 1.
Definition MID_TEST_MSG : Z := 2.
Definition MID_ACK_MSG : Z := 3.
Definition RESET_MSG : Z := 4.
Definition PROMOTE_MSG : Z := 5.

Definition LEFT : Z := 0.
Definition RIGHT : Z := 1.
Definition BROADCAST : Z := 2.

Definition INT_MIN : Z := -2147483648.
Definition INT_MAX : Z := 2147483647.

(** ** struct machine *)

Record machine : Type := Machine {
  activity : Z;
  timer : Z;
  color : Z;
  type : Z;
  message_direction : Z;
  message : Z;
  testing : Z
}.

Definition set_activity (v : Z) (m : machine) : machine :=
  Machine v (timer m) (color m) (type m) (message_direction m) (message m) (testing m).
Definition set_timer (v : Z) (m : machine) : machine :=
  Machine (activity m) v (color m) (type m) (message_direction m) (message m) (testing m).
Definition set_color (v : Z) (m : machine) : machine :=
  Machine (activity m) (timer m) v (type m) (message_direction m) (message m) (testing m).
Definition set_type (v : Z) (m : machine) : machine :=
  Machine (activity m) (timer m) (color m) v (message_direction m) (message m) (testing m).
Definition set_message_direction (v : Z) (m : machine) : machine :=
  Machine (activity m) (timer m) (color m) (type m) v (message m) (testing m).
Definition set_message (v : Z) (m : machine) : machine :=
  Machine (activity m) (timer m) (color m) (type m) (message_direction m) v (testing m).
Definition set_testing (v : Z) (m : machine) : machine :=
  Machine (activity m) (timer m) (color m) (type m) (message_direction m) (message m) v.

(** [machines[j]->timer--]; decrementing [INT_MIN] overflows. *)
Definition dec_timer (m : machine) : option machine :=
  if timer m =? INT_MIN then None else Some (set_timer (timer m - 1) m).

(** [a[j]->...] for one of the two global arrays. *)
Definition deref (a : list machine) (j : Z) : option machine :=
  if j <? 0 then None else a !! Z.to_nat j.

(** ** update_state *)

(** The message a machine offers to its right neighbour, resp. to its left
    neighbour (lines 373-375 and 377-379, 424-430). *)
Definition msg_to_right (l : machine) : Z :=
  if (message_direction l =? RIGHT) || (message_direction l =? BROADCAST)
  then message l else NO_MSG.
Definition msg_to_left (r : machine) : Z :=
  if (message_direction r =? LEFT) || (message_direction r =? BROADCAST)
  then message r else NO_MSG.

(** The three assignments that end [update_state] (lines 631-633). *)
Definition commit (act dir msg : Z) (m : machine) : machine :=
  set_message msg (set_message_direction dir (set_activity act m)).

(** The promotion of a soldier (lines 438-443, 449-454). *)
Definition promoted (dir : Z) (m : machine) : machine :=
  set_message_direction dir
    (set_message RESET_MSG
      (set_testing TRUE
        (set_activity ACTIVE
          (set_color RED
            (set_type GENERAL m))))).

(** [if(machines_old[j]->timer) machines[j]->timer--;] *)
Definition tick (mo : machine) (m : machine) : option machine :=
  if timer mo =? 0 then Some m else dec_timer m.

(** How every path of a passive soldier ends: the timer statement of lines
    623-624, then the assignments of lines 631-633 with [act = PASSIVE]. *)
Definition passive_end (mo : machine) (dir msg : Z) (m : machine)
    : option machine :=
  m2 ← tick mo m;
  Some (commit PASSIVE dir msg m2).

(** The General branch (lines 362-417) once [lm] and [rm] are known.  [tl]
    and [tr] stand for [machines[j-1]->type] and [machines[j+1]->type], which
    line 411-413 reads from the array being written; they are evaluated only
    on the path that reads them. *)
Definition general_rule (dir0 lm rm : Z) (tl tr : option Z)
    (mo m : machine) : option machine :=
  let act := if activity mo =? ACTIVE then ACTIVE else PASSIVE in
  if (rm =? RESET_MSG) || (lm =? RESET_MSG) then
    Some (set_activity PASSIVE m)
  else if (rm =? MID_TEST_MSG) && (lm =? MID_TEST_MSG) then
    Some (commit act BROADCAST MID_ACK_MSG m)
  else if rm =? MID_TEST_MSG then
    Some (commit act RIGHT MID_ACK_MSG m)
  else if lm =? MID_TEST_MSG then
    Some (commit act LEFT MID_ACK_MSG m)
  else if activity mo =? ACTIVE then
    if testing mo =? TRUE then
      Some (commit ACTIVE BROADCAST TEST_MSG (set_testing FALSE m))
    else
      froml ← (if lm =? TEST_MSG
               then t ← tl; Some (t =? SOLDIER)
               else Some false);
      prod ← (if froml : bool then Some true
              else if rm =? TEST_MSG
                   then t ← tr; Some (t =? SOLDIER)
                   else Some false);
      Some (commit act dir0 NO_MSG
              (if prod : bool then set_testing TRUE m else m))
  else
    Some (commit act dir0 NO_MSG m).

(** [lm] and [rm] as a General computes them (lines 372-379): the end
    machines have no neighbour on one side. *)
Definition left_msg (old : list machine) (j : Z) : option Z :=
  if j =? 0 then Some NO_MSG
  else l ← deref old (j - 1); Some (msg_to_right l).
Definition right_msg (N : Z) (old : list machine) (j : Z) : option Z :=
  if j <? N - 1
  then r ← deref old (j + 1); Some (msg_to_left r)
  else Some NO_MSG.

Definition update_general (dir0 N : Z) (old cur : list machine) (j : Z)
    (mo m : machine) : option machine :=
  lm ← left_msg old j;
  rm ← right_msg N old j;
  general_rule dir0 lm rm
    (type <$> deref cur (j - 1)) (type <$> deref cur (j + 1)) mo m.

(** The Soldier branch (lines 432-625) once [lm] and [rm] are known. *)
Definition soldier_rule (dir0 lm rm : Z) (mo m : machine) : option machine :=
  if lm =? PROMOTE_MSG then Some (promoted RIGHT m)
  else if rm =? PROMOTE_MSG then Some (promoted LEFT m)
  else if message mo =? PROMOTE_MSG then
    Some (set_message_direction
            (if message_direction mo =? RIGHT then LEFT else RIGHT)
            (set_timer 0
              (set_message RESET_MSG
                (set_testing TRUE
                  (set_activity ACTIVE
                    (set_color RED
                      (set_type GENERAL m)))))))
  else if (rm =? NO_MSG) && (lm =? NO_MSG) then
    tick mo (set_message NO_MSG m)
  else if (lm =? RESET_MSG) || (rm =? RESET_MSG) then
    Some (commit ACTIVE (if lm =? RESET_MSG then RIGHT else LEFT) RESET_MSG m)
  else if activity mo =? ACTIVE then
    if (rm =? TEST_MSG) || (lm =? TEST_MSG) then
      Some (commit ACTIVE BROADCAST MID_TEST_MSG (set_testing TRUE m))
    else if rm =? MID_ACK_MSG then
      if lm =? MID_ACK_MSG then
        Some (commit ACTIVE BROADCAST RESET_MSG
                (set_testing TRUE (set_color RED (set_type GENERAL m))))
      else if testing mo =? 0 then
        Some (commit ACTIVE LEFT MID_ACK_MSG m)
      else
        Some (commit PASSIVE dir0 NO_MSG (set_timer 3 m))
    else if lm =? MID_ACK_MSG then
      if rm =? MID_ACK_MSG then
        Some (commit ACTIVE BROADCAST RESET_MSG
                (set_testing TRUE (set_color RED (set_type GENERAL m))))
      else if testing mo =? 0 then
        Some (commit ACTIVE RIGHT MID_ACK_MSG m)
      else
        Some (commit PASSIVE dir0 NO_MSG (set_timer 3 m))
    else if negb (lm =? NO_MSG) then
      Some (commit ACTIVE RIGHT lm m)
    else
      Some (commit ACTIVE LEFT rm m)
  else
    if (testing mo =? TRUE) && (rm =? MID_ACK_MSG) then
      if timer mo >=? 1
      then passive_end mo RIGHT PROMOTE_MSG (set_timer 0 (set_testing FALSE m))
      else passive_end mo LEFT TEST_MSG (set_testing FALSE m)
    else if (testing mo =? TRUE) && (lm =? MID_ACK_MSG) then
      if timer mo >=? 1
      then passive_end mo LEFT PROMOTE_MSG (set_timer 0 (set_testing FALSE m))
      else passive_end mo RIGHT TEST_MSG (set_testing FALSE m)
    else if negb (lm =? NO_MSG) then passive_end mo RIGHT lm m
    else passive_end mo LEFT rm m.

Definition update_soldier (dir0 : Z) (old : list machine) (j : Z)
    (mo m : machine) : option machine :=
  l ← deref old (j - 1);
  r ← deref old (j + 1);
  soldier_rule dir0 (msg_to_right l) (msg_to_left r) mo m.

(** [update_state(j)]: the new contents of [*machines[j]], or [None] when the
    call dereferences an entry outside [0..N-1] (or overflows the timer). *)
Definition update_state (dir0 N : Z) (old cur : list machine) (j : Z)
    : option machine :=
  mo ← deref old j;
  m ← deref cur j;
  if type mo =? GENERAL
  then update_general dir0 N old cur j mo m
  else update_soldier dir0 old j mo m.

(** ** The main loop *)

(** [for(j=0;j<N;j++)update_state(j);] from position [j], [n] positions. *)
Fixpoint update_loop (g : Z → Z) (N : Z) (old : list machine)
    (n : nat) (j : Z) (cur : list machine) : option (list machine) :=
  match n with
  | O => Some cur
  | S n' =>
      m ← update_state (g j) N old cur j;
      update_loop g N old n' (j + 1) (<[Z.to_nat j := m]> cur)
  end.

(** One time step: copy [machines] to [machines_old], then update every
    position in ascending order (lines 247-253). *)
Definition step (g : Z → Z) (N : Z) (cur : list machine)
    : option (list machine) :=
  let old := cur in
  update_loop g N old (Z.to_nat N) 0 cur.

(** [!machines[j]->color == RED]: the negation binds first. *)
Definition not_red (m : machine) : bool :=
  (if color m =? 0 then 1 else 0) =? RED.

(** The firing test (lines 259-264): [fire] starts [TRUE] and the loop
    leaves with [FALSE] at the first machine that is not red. *)
Fixpoint fire_loop (cur : list machine) (n : nat) (j : Z) : option bool :=
  match n with
  | O => Some true
  | S n' =>
      m ← deref cur j;
      if not_red m then Some false else fire_loop cur n' (j + 1)
  end.

Definition fire (N : Z) (cur : list machine) : option bool :=
  fire_loop cur (Z.to_nat N) 0.

(** ** Initial state (lines 212-235) *)

Definition left_general : machine :=
  Machine ACTIVE 0 RED GENERAL RIGHT NO_MSG TRUE.
Definition soldier : machine :=
  Machine ACTIVE 0 BLACK SOLDIER BROADCAST NO_MSG FALSE.
Definition right_general : machine :=
  Machine PASSIVE 0 RED GENERAL LEFT NO_MSG FALSE.

(** [for(i=1;i<N-1;i++)] writes the soldier into [machines[i]]. *)
Fixpoint fill_soldiers (n : nat) (i : Z) (ms : list machine) : list machine :=
  match n with
  | O => ms
  | S n' => fill_soldiers n' (i + 1) (<[Z.to_nat i := soldier]> ms)
  end.

(** The [N] records start with whatever [malloc] returned ([blank]); every
    field of every record is then assigned. *)
Definition init_from (blank : machine) (N : Z) : list machine :=
  let ms := replicate (Z.to_nat N) blank in
  let ms := <[0%nat := left_general]> ms in
  let ms := fill_soldiers (Z.to_nat (N - 2)) 1 ms in
  <[Z.to_nat (N - 1) := right_general]> ms.

Definition init (N : Z) : list machine :=
  init_from (Machine 0 0 0 0 0 0 0) N.

(** ** main *)

(** What one turn of [while(TRUE)] does (lines 241-272).  [Fault] stands for
    a dereference outside the allocated entries, [Overflow] for [t++] at
    [INT_MAX]. *)
Inductive iteration : Type :=
| Break_cap
| Break_fire (cur' : list machine)
| Continue (cur' : list machine) (t' maxsteps' : Z)
| Fault
| Overflow.

Definition loop_body (g : Z → Z) (N maxsteps t : Z) (cur : list machine)
    : iteration :=
  if maxsteps =? 0 then Break_cap
  else
    match step g N cur with
    | None => Fault
    | Some cur' =>
        match fire N cur' with
        | None => Fault
        | Some true => Break_fire cur'
        | Some false =>
            if t =? INT_MAX then Overflow
            else Continue cur' (t + 1)
                   (if maxsteps >? 0 then maxsteps - 1 else maxsteps)
        end
    end.

(** How a run ends.  [printed] lists the snapshots handed to [print_state],
    the latest first; [t] is the number that the last [printf] reports. *)
Inductive outcome : Type :=
| ConfigError
| AllocError
| Fired (t : Z) (printed : list (list machine))
| Capped (t : Z) (printed : list (list machine))
| Crashed
| Overflowed
| Unfinished.

(** The loop itself; [fuel] bounds the number of turns observed and [k]
    counts the turns already made. *)
Fixpoint main_loop (g : nat → Z → Z) (fuel k : nat) (N maxsteps t : Z)
    (cur : list machine) (printed : list (list machine)) : outcome :=
  match fuel with
  | O => Unfinished
  | S fuel' =>
      match loop_body (g k) N maxsteps t cur with
      | Break_cap => Capped t printed
      | Break_fire cur' => Fired t (cur' :: printed)
      | Continue cur' t' maxsteps' =>
          main_loop g fuel' (S k) N maxsteps' t' cur' (cur' :: printed)
      | Fault => Crashed
      | Overflow => Overflowed
      end
  end.

(** [main] once the options are read: [N] and [maxsteps] hold what [-n] and
    [-t] gave them; [alloc_ok] tells whether every [malloc] succeeded. *)
Definition main_with (g : nat → Z → Z) (fuel : nat) (alloc_ok : bool)
    (N maxsteps : Z) : outcome :=
  if (N <=? 0) || (N >? MAX_LENGTH) then ConfigError
  else if negb alloc_ok then AllocError
  else main_loop g fuel 0 N maxsteps 1 (init N) [init N].

(** The values of [-n] and [-t], when given; otherwise the initialisers
    [int N = DEFAULT_LENGTH] and [int maxsteps = -1]. *)
Definition main (g : nat → Z → Z) (fuel : nat) (alloc_ok : bool)
    (n_opt t_opt : option Z) : outcome :=
  main_with g fuel alloc_ok
    (default DEFAULT_LENGTH n_opt) (default (-1) t_opt).

(** The snapshot after [k] steps of the automaton left running. *)
Fixpoint snapshot (g : nat → Z → Z) (N : Z) (k : nat)
    : option (list machine) :=
  match k with
  | O => Some (init N)
  | S k' => cur ← snapshot g N k'; step (g k') N cur
  end.

(** The value taken for the uninitialised [dir] in the concrete runs below. *)
Definition g0 : nat → Z → Z := fun _ _ => 0.

(** ** Invariants of the reachable snapshots *)

(** The timer stays in [-1..3], and a soldier whose timer is [-1] has just
    sent Promote (it becomes a General in the next step). *)
Definition timer_ok (m : machine) : Prop :=
  -1 ≤ timer m ≤ 3 ∧
  (type m ≠ GENERAL → timer m = -1 → message m = PROMOTE_MSG).

Definition color_ok (m : machine) : Prop :=
  color m = RED ∨ color m = BLACK.

Definition all_red (s : list machine) : Prop :=
  ∀ j m, deref s j = Some m → color m = RED.

Definition has_black (s : list machine) : Prop :=
  ∃ j m, deref s j = Some m ∧ color m = BLACK.

(** A snapshot of a line of [N] machines whose two ends are Generals. *)
Definition well_formed (N : Z) (s : list machine) : Prop :=
  Z.of_nat (length s) = N ∧
  (∃ m, deref s 0 = Some m ∧ type m = GENERAL) ∧
  (∃ m, deref s (N - 1) = Some m ∧ type m = GENERAL) ∧
  (∀ j m, deref s j = Some m → timer_ok m ∧ color_ok m).

(** ** Concrete lines used below *)




(** The last step of a line of three: the snapshots after steps 3 and 4. *)
Definition squad3_step3 : list machine :=
  [ Machine ACTIVE 0 RED GENERAL RIGHT MID_ACK_MSG FALSE;
    Machine ACTIVE 0 BLACK SOLDIER BROADCAST NO_MSG TRUE;
    Machine PASSIVE 0 RED GENERAL LEFT MID_ACK_MSG FALSE ].

Definition squad3_step4 : list machine :=
  [ Machine ACTIVE 0 RED GENERAL 0 NO_MSG FALSE;
    Machine ACTIVE 0 RED GENERAL BROADCAST RESET_MSG TRUE;
    Machine PASSIVE 0 RED GENERAL 0 NO_MSG FALSE ].



(** What the run of a line of three prints. *)
Definition printed3 : list (list machine) :=
  Eval vm_compute in
    match main g0 10 true (Some 3) None with
    | Fired _ p => p
    | _ => []
    end.

(** ** Further invariants and relations *)

(** The values the fields take in the snapshots of a run: every field within
    its enumeration, a direction among the three whenever a message is
    carried, red exactly for Generals, and no MidTest or Promote carried by a
    General. *)
Definition fields_ok (m : machine) : Prop :=
  (activity m = PASSIVE ∨ activity m = ACTIVE) ∧
  (type m = GENERAL ∨ type m = SOLDIER) ∧
  (testing m = FALSE ∨ testing m = TRUE) ∧
  NO_MSG ≤ message m ≤ PROMOTE_MSG ∧
  (message m ≠ NO_MSG → LEFT ≤ message_direction m ≤ BROADCAST) ∧
  (color m = RED ↔ type m = GENERAL) ∧
  (type m = GENERAL → message m ≠ MID_TEST_MSG ∧ message m ≠ PROMOTE_MSG).

Definition line_ok (s : list machine) : Prop :=
  ∀ j m, deref s j = Some m → fields_ok m.

(** Two records that differ at most in the direction of a machine that
    sends nothing. *)
Definition same_signal (m m' : machine) : Prop :=
  activity m = activity m' ∧ timer m = timer m' ∧ color m = color m' ∧
  type m = type m' ∧ message m = message m' ∧ testing m = testing m' ∧
  (message m ≠ NO_MSG → message_direction m = message_direction m').

(** Lines, and runs, that agree up to such directions. *)
Definition same_signals (s s' : list machine) : Prop :=
  Forall2 same_signal s s'.

Definition same_outcome (o o' : outcome) : Prop :=
  match o, o' with
  | ConfigError, ConfigError => True
  | AllocError, AllocError => True
  | Fired t p, Fired t' p' => t = t' ∧ Forall2 same_signals p p'
  | Capped t p, Capped t' p' => t = t' ∧ Forall2 same_signals p p'
  | Crashed, Crashed => True
  | Overflowed, Overflowed => True
  | Unfinished, Unfinished => True
  | _, _ => False
  end.

(** ** Further concrete lines *)




(** ** The command line (lines 157-191) *)

(** [argv[i][0] == '-'] *)
Definition is_option (a : string) : bool :=
  match a with
  | String c _ => Ascii.eqb c "-"%char
  | EmptyString => false
  end.

(** How the option loop ends.  [legends] counts the calls of [legend()].
    [NullValue] stands for [atoi(argv[argc])], the call made when [-n], [-t]
    or [-d] is the last argument: [argv[argc]] is the null pointer. *)
Inductive parsed : Type :=
| Help (legends : nat)
| Version (legends : nat)
| Unknown (opt : string) (legends : nat)
| NullValue (legends : nat)
| Options (N maxsteps delay : Z) (legends : nat).

(** The [while] loop over [argv[1..argc-1]]; [atoi] is the library's. *)
Fixpoint parse_options (atoi : string → Z) (args : list string)
    (N maxsteps delay : Z) (legends : nat) : parsed :=
  match args with
  | [] => Options N maxsteps delay legends
  | a :: rest =>
      if negb (is_option a) then Options N maxsteps delay legends
      else if String.eqb a "-h" then Help legends
      else if String.eqb a "-v" then Version legends
      else if String.eqb a "-n" then
        match rest with
        | [] => NullValue legends
        | v :: rest' => parse_options atoi rest' (atoi v) maxsteps delay legends
        end
      else if String.eqb a "-l" then
        parse_options atoi rest N maxsteps delay (S legends)
      else if String.eqb a "-t" then
        match rest with
        | [] => NullValue legends
        | v :: rest' => parse_options atoi rest' N (atoi v) delay legends
        end
      else if String.eqb a "-d" then
        match rest with
        | [] => NullValue legends
        | v :: rest' => parse_options atoi rest' N maxsteps (atoi v) legends
        end
      else Unknown a legends
  end.

(** The whole program: how it ends, and on which options it ran. *)
Inductive program_end : Type :=
| Stopped (p : parsed)
| Ran (o : outcome).

Definition fsquad (atoi : string → Z) (g : nat → Z → Z) (fuel : nat)
    (alloc_ok : bool) (args : list string) : program_end :=
  match parse_options atoi args DEFAULT_LENGTH (-1) 0 0 with
  | Options N maxsteps _ _ => Ran (main_with g fuel alloc_ok N maxsteps)
  | p => Stopped p
  end.

(** A well-formed option, and the arguments that spell it. *)
Inductive option_arg : Type :=
| Opt_n (v : string)
| Opt_t (v : string)
| Opt_d (v : string)
| Opt_l.

Definition argv_of (o : option_arg) : list string :=
  match o with
  | Opt_n v => ["-n"; v]
  | Opt_t v => ["-t"; v]
  | Opt_d v => ["-d"; v]
  | Opt_l => ["-l"]
  end.

Definition args_of (os : list option_arg) : list string :=
  concat (map argv_of os).

(** The value of the last [-n], resp. [-t], if there is one. *)
Fixpoint last_n (atoi : string → Z) (os : list option_arg) (acc : option Z)
    : option Z :=
  match os with
  | [] => acc
  | Opt_n v :: os' => last_n atoi os' (Some (atoi v))
  | _ :: os' => last_n atoi os' acc
  end.

Fixpoint last_t (atoi : string → Z) (os : list option_arg) (acc : option Z)
    : option Z :=
  match os with
  | [] => acc
  | Opt_t v :: os' => last_t atoi os' (Some (atoi v))
  | _ :: os' => last_t atoi os' acc
  end.

Fixpoint last_d (atoi : string → Z) (os : list option_arg) (acc : Z) : Z :=
  match os with
  | [] => acc
  | Opt_d v :: os' => last_d atoi os' (atoi v)
  | _ :: os' => last_d atoi os' acc
  end.

Fixpoint count_l (os : list option_arg) (acc : nat) : nat :=
  match os with
  | [] => acc
  | Opt_l :: os' => count_l os' (S acc)
  | _ :: os' => count_l os' acc
  end.

(** The rest of the command line is not looked at: it is empty or starts
    with an argument that is not an option. *)
Definition ends_options (tail : list string) : Prop :=
  match tail with
  | [] => True
  | a :: _ => is_option a = false
  end.

(** ** The steps at which short lines fire *)

(** The number reported by the run of a line of 1, 2, ..., 16 machines. *)
Definition firing_steps : list Z :=
  [1; 1; 4; 7; 20; 25; 43; 50; 84; 93; 125; 136; 187; 200; 246; 261].

(** The number a run reports when it ends by firing. *)
Definition fired_at (o : outcome) : option Z :=
  match o with
  | Fired t _ => Some t
  | _ => None
  end.

(** ** print_machine and print_state (lines 278-352) *)

(** [printf("%d", z)] *)
Definition decimal (z : Z) : string := NilZero.string_of_int (Z.to_int z).

(** The pieces that [print_machine] writes, in the order it writes them. *)
Definition type_mark (m : machine) : string :=
  if type m =? GENERAL then (if activity m =? ACTIVE then "G" else "g")
  else if type m =? SOLDIER then (if activity m =? ACTIVE then "S" else "s")
  else "?".

Definition color_mark (m : machine) : string :=
  if color m =? RED then "R"
  else if color m =? BLACK then ""
  else "?".

Definition testing_mark (m : machine) : string :=
  if testing m =? 0 then "" else "t[" +:+ decimal (timer m) +:+ "]".

Definition direction_mark (m : machine) : string :=
  if message_direction m =? LEFT then "<-"
  else if message_direction m =? RIGHT then "->"
  else if message_direction m =? BROADCAST then "<->"
  else "?".

Definition message_mark (m : machine) : string :=
  if message m =? NO_MSG then ""
  else if message m =? TEST_MSG then "!"
  else if message m =? MID_TEST_MSG then "m?"
  else if message m =? MID_ACK_MSG then "m!"
  else if message m =? RESET_MSG then "0!"
  else if message m =? PROMOTE_MSG then "^"
  else "??".

Definition print_machine (m : machine) : string :=
  "|" +:+ type_mark m +:+ color_mark m +:+ testing_mark m +:+
  direction_mark m +:+ message_mark m +:+ "| ".

(** [print_state]: a new line, the [N] cells, two new lines. *)
Fixpoint print_cells (cur : list machine) (n : nat) (i : Z) : option string :=
  match n with
  | O => Some ""
  | S n' =>
      m ← deref cur i;
      rest ← print_cells cur n' (i + 1);
      Some (print_machine m +:+ rest)
  end.

Definition new_line : string := String (ascii_of_nat 10) "".

Definition print_state (N : Z) (cur : list machine) : option string :=
  cells ← print_cells cur (Z.to_nat N) 0;
  Some (new_line +:+ cells +:+ new_line +:+ new_line).








(** ** Proof automation *)

Ltac unfold_consts :=
  unfold TRUE, FALSE, RED, BLACK, PASSIVE, ACTIVE, GENERAL, SOLDIER,
    NO_MSG, TEST_MSG, MID_TEST_MSG, MID_ACK_MSG, RESET_MSG, PROMOTE_MSG,
    LEFT, RIGHT, BROADCAST, INT_MIN, INT_MAX, MAX_LENGTH in *.

Ltac rule_cases :=
  unfold soldier_rule, general_rule, passive_end, tick, dec_timer;
  repeat (simpl;
          first [ case_match
                | match goal with
                  | |- context [mbind _ ?x] => is_var x; destruct x
                  end ]);
  simpl; intros; simplify_eq; simpl.

Ltac rule_field :=
  rule_cases; unfold_consts; first [ tauto | lia ].

Ltac unfold_rule :=
  unfold soldier_rule, general_rule, passive_end, tick, dec_timer,
    set_message_direction, commit, promoted, set_message, set_activity,
    set_timer, set_testing, set_color, set_type; cbn.

Ltac close_same_signal :=
  constructor; unfold same_signal, NO_MSG; cbn;
  repeat split; intros; congruence.


(** * Properties of the embedding *)

(** ** Reading and writing the arrays *)

Lemma deref_Some a j m :
  deref a j = Some m ↔ 0 ≤ j ∧ a !! Z.to_nat j = Some m.
Proof.
  unfold deref. destruct (j <? 0) eqn:E.
  - split; [discriminate | lia].
  - split; [intros H; split; [lia | exact H] | intros [_ H]; exact H].
Qed.

Lemma deref_range a j m :
  deref a j = Some m → 0 ≤ j < Z.of_nat (length a).
Proof.
  intros [H0 H]%deref_Some. apply lookup_lt_Some in H. lia.
Qed.

Lemma deref_is_Some a j :
  0 ≤ j < Z.of_nat (length a) → is_Some (deref a j).
Proof.
  intros H. unfold deref. destruct (j <? 0) eqn:E; [lia |].
  apply lookup_lt_is_Some. lia.
Qed.

Lemma deref_None a j :
  deref a j = None ↔ j < 0 ∨ Z.of_nat (length a) ≤ j.
Proof.
  split.
  - intros H. destruct (Z_lt_dec j 0) as [|Hj]; [auto | right].
    destruct (Z_le_dec (Z.of_nat (length a)) j) as [|Hn]; [done |].
    destruct (deref_is_Some a j) as [m Hm]; [lia | congruence].
  - intros H. destruct (deref a j) as [m|] eqn:E; [| done].
    apply deref_range in E. lia.
Qed.

Lemma deref_insert_eq a j m :
  0 ≤ j < Z.of_nat (length a) → deref (<[Z.to_nat j := m]> a) j = Some m.
Proof.
  intros H. apply deref_Some. split; [lia |].
  apply list_lookup_insert_eq. lia.
Qed.

Lemma deref_insert_ne a i j m :
  0 ≤ i → i ≠ j → deref (<[Z.to_nat i := m]> a) j = deref a j.
Proof.
  intros Hi Hne. unfold deref. destruct (j <? 0) eqn:E; [done |].
  apply list_lookup_insert_ne. lia.
Qed.

Lemma deref_ext a b :
  (∀ j, deref a j = deref b j) → a = b.
Proof.
  intros H. apply list_eq. intros i.
  specialize (H (Z.of_nat i)). unfold deref in H.
  destruct (Z.of_nat i <? 0) eqn:E; [lia |].
  by rewrite Nat2Z.id in H.
Qed.

(** ** Case analysis of [update_state] *)

Lemma soldier_rule_color d lm rm mo m m' :
  soldier_rule d lm rm mo m = Some m' →
  color m' = color m ∨ color m' = RED.
Proof. rule_cases; auto. Qed.

Lemma general_rule_color d lm rm tl tr mo m m' :
  general_rule d lm rm tl tr mo m = Some m' →
  color m' = color m.
Proof. rule_cases; auto. Qed.

Lemma soldier_rule_timer d lm rm m m' :
  soldier_rule d lm rm m m = Some m' →
  type m ≠ GENERAL → timer_ok m → timer_ok m'.
Proof.
  unfold timer_ok. rule_cases.
  all: unfold_consts; lia.
Qed.

(** The path of lines 580-583 and 623-624, whatever the value of [dir0]: a
    passive testing soldier whose timer is still positive answers the
    second MidAck with Promote; its timer is set to 0 and then decremented. *)
Lemma soldier_rule_promote_timer d lm m m' :
  lm ≠ PROMOTE_MSG → lm ≠ RESET_MSG →
  message m ≠ PROMOTE_MSG →
  activity m ≠ ACTIVE → testing m = TRUE → 1 ≤ timer m →
  soldier_rule d lm MID_ACK_MSG m m = Some m' →
  message m' = PROMOTE_MSG ∧ message_direction m' = RIGHT ∧ timer m' = -1.
Proof.
  intros Hl1 Hl2 Hm Ha Ht Htm. rule_cases; unfold_consts; lia.
Qed.

Lemma general_rule_timer d lm rm tl tr mo m m' :
  general_rule d lm rm tl tr mo m = Some m' →
  timer m' = timer m ∧ type m' = type m.
Proof. rule_cases; auto. Qed.

Lemma soldier_rule_type d lm rm mo m m' :
  soldier_rule d lm rm mo m = Some m' →
  type m' = type m ∨ type m' = GENERAL.
Proof. rule_cases; auto. Qed.

Lemma soldier_rule_total d lm rm m :
  INT_MIN < timer m → is_Some (soldier_rule d lm rm m m).
Proof. rule_cases; eauto; unfold_consts; lia. Qed.


Lemma general_rule_total d lm rm tl tr mo m :
  (lm = TEST_MSG → is_Some tl) →
  (rm = TEST_MSG → is_Some tr) →
  is_Some (general_rule d lm rm tl tr mo m).
Proof.
  intros Hl Hr.
  assert (Hl' : (lm =? TEST_MSG) = true → is_Some tl)
    by (intros; apply Hl; lia).
  assert (Hr' : (rm =? TEST_MSG) = true → is_Some tr)
    by (intros; apply Hr; lia).
  clear Hl Hr. unfold general_rule.
  destruct (lm =? TEST_MSG); destruct (rm =? TEST_MSG);
    try (destruct Hl' as [? ->]; [done |]);
    try (destruct Hr' as [? ->]; [done |]);
    repeat (simpl; case_match); simpl; eauto.
Qed.

(** ** One call of [update_state] *)

Lemma update_state_general d N old cur j mo m :
  deref old j = Some mo → deref cur j = Some m → type mo = GENERAL →
  update_state d N old cur j = update_general d N old cur j mo m.
Proof.
  intros Ho Hm Ht. unfold update_state. rewrite Ho, Hm. simpl.
  by rewrite Ht.
Qed.

Lemma update_state_soldier d N old cur j mo m :
  deref old j = Some mo → deref cur j = Some m → type mo ≠ GENERAL →
  update_state d N old cur j = update_soldier d old j mo m.
Proof.
  intros Ho Hm Ht. unfold update_state. rewrite Ho, Hm. simpl.
  destruct (type mo =? GENERAL) eqn:E; [lia | done].
Qed.

(** What a successful call did: which branch ran and on which messages. *)
Lemma update_state_inv d N old cur j m' :
  update_state d N old cur j = Some m' →
  ∃ mo m, deref old j = Some mo ∧ deref cur j = Some m ∧
    ((type mo = GENERAL ∧ ∃ lm rm,
        left_msg old j = Some lm ∧ right_msg N old j = Some rm ∧
        general_rule d lm rm (type <$> deref cur (j - 1))
          (type <$> deref cur (j + 1)) mo m = Some m')
     ∨ (type mo ≠ GENERAL ∧ ∃ l r,
        deref old (j - 1) = Some l ∧ deref old (j + 1) = Some r ∧
        soldier_rule d (msg_to_right l) (msg_to_left r) mo m = Some m')).
Proof.
  unfold update_state. intros H.
  destruct (deref old j) as [mo|] eqn:Ho; [simpl in H | done].
  destruct (deref cur j) as [m|] eqn:Hm; [simpl in H | done].
  exists mo, m. do 2 (split; [done |]).
  destruct (type mo =? GENERAL) eqn:Ht.
  - left. split; [lia |]. unfold update_general in H.
    destruct (left_msg old j) as [lm|]; [simpl in H | done].
    destruct (right_msg N old j) as [rm|]; [simpl in H | done].
    by exists lm, rm.
  - right. split; [lia |]. unfold update_soldier in H.
    destruct (deref old (j - 1)) as [l|]; [simpl in H | done].
    destruct (deref old (j + 1)) as [r|]; [simpl in H | done].
    by exists l, r.
Qed.


Lemma update_state_color d N old cur j m m' :
  deref cur j = Some m →
  update_state d N old cur j = Some m' →
  color m' = color m ∨ color m' = RED.
Proof.
  intros Hm (mo & m1 & Ho & Hm1 & [(_ & lm & rm & _ & _ & H) | (_ & l & r & _ & _ & H)])%update_state_inv;
    simplify_eq.
  - left. eapply general_rule_color, H.
  - eapply soldier_rule_color, H.
Qed.

Lemma update_state_type d N old cur j m m' :
  deref cur j = Some m →
  update_state d N old cur j = Some m' →
  type m' = type m ∨ type m' = GENERAL.
Proof.
  intros Hm (mo & m1 & Ho & Hm1 & [(_ & lm & rm & _ & _ & H) | (_ & l & r & _ & _ & H)])%update_state_inv;
    simplify_eq.
  - left. eapply general_rule_timer, H.
  - eapply soldier_rule_type, H.
Qed.

Lemma update_state_timer d N old cur j m m' :
  deref old j = Some m → deref cur j = Some m →
  update_state d N old cur j = Some m' →
  timer_ok m → timer_ok m'.
Proof.
  intros Ho Hm (mo & m1 & Ho1 & Hm1 & [(Ht & lm & rm & _ & _ & H) | (Ht & l & r & _ & _ & H)])%update_state_inv Hok;
    simplify_eq.
  - apply general_rule_timer in H as [H1 H2]. unfold timer_ok in *.
    rewrite H1, H2. split; [tauto | intros []; done].
  - eapply soldier_rule_timer; eauto.
Qed.

Lemma update_state_total d N old cur j m :
  Z.of_nat (length old) = N → length cur = length old →
  deref old j = Some m → deref cur j = Some m →
  (type m ≠ GENERAL → 0 < j < N - 1) →
  INT_MIN < timer m →
  is_Some (update_state d N old cur j).
Proof.
  intros HN Hlen Ho Hm Hint Ht.
  pose proof (deref_range _ _ _ Ho) as Hj.
  destruct (Z.eq_dec (type m) GENERAL) as [Hg | Hs].
  - rewrite (update_state_general _ _ _ _ _ _ _ Ho Hm Hg).
    unfold update_general, left_msg, right_msg.
    destruct (j =? 0) eqn:E0; simpl.
    + destruct (j <? N - 1) eqn:E1; simpl.
      * destruct (deref_is_Some old (j + 1)) as [r ->]; [lia |]. simpl.
        apply general_rule_total; [unfold_consts; lia |].
        intros _. destruct (deref_is_Some cur (j + 1)) as [r' ->]; [lia |].
        simpl. eauto.
      * apply general_rule_total; unfold_consts; lia.
    + destruct (deref_is_Some old (j - 1)) as [l ->]; [lia |]. simpl.
      destruct (deref_is_Some cur (j - 1)) as [l' ->]; [lia |]. simpl.
      destruct (j <? N - 1) eqn:E1; simpl.
      * destruct (deref_is_Some old (j + 1)) as [r ->]; [lia |]. simpl.
        apply general_rule_total; [eauto |].
        intros _. destruct (deref_is_Some cur (j + 1)) as [r' ->]; [lia |].
        simpl. eauto.
      * apply general_rule_total; [eauto | unfold_consts; lia].
  - rewrite (update_state_soldier _ _ _ _ _ _ _ Ho Hm Hs).
    specialize (Hint Hs). unfold update_soldier.
    destruct (deref_is_Some old (j - 1)) as [l ->]; [lia |]. simpl.
    destruct (deref_is_Some old (j + 1)) as [r ->]; [lia |]. simpl.
    by apply soldier_rule_total.
Qed.

(** ** One time step *)

(** Position by position: entry [p] of the new snapshot is what
    [update_state(p)] returned, called with [machines_old] the old snapshot
    and [machines] holding the new entries below [p] and the old ones from
    [p] on. *)
Lemma update_loop_lookup g N old n : ∀ j cur cur',
  0 ≤ j →
  update_loop g N old n j cur = Some cur' →
  length cur' = length cur ∧
  (∀ p, p < j ∨ j + Z.of_nat n ≤ p → deref cur' p = deref cur p) ∧
  (∀ p, j ≤ p < j + Z.of_nat n →
     ∃ c m', update_state (g p) N old c p = Some m' ∧
       deref cur' p = Some m' ∧
       length c = length cur ∧
       (∀ q, p ≤ q → deref c q = deref cur q) ∧
       (∀ q, q < p → deref c q = deref cur' q)).
Proof.
  induction n as [|n IH]; intros j cur cur' Hj H; simpl in H.
  - simplify_eq. split; [done |]. split; [done | lia].
  - destruct (update_state (g j) N old cur j) as [m|] eqn:Hu; [simpl in H | done].
    assert (Hr : 0 ≤ j < Z.of_nat (length cur)).
    { apply update_state_inv in Hu as (? & ? & _ & Hc & _).
      by apply deref_range in Hc. }
    apply IH in H as (Hlen & Hout & Hin); [| lia].
    rewrite length_insert in Hlen.
    split; [done |]. split.
    + intros p Hp. rewrite Hout by lia. apply deref_insert_ne; lia.
    + intros p Hp. destruct (Z.eq_dec p j) as [-> | Hne].
      * exists cur, m. split; [done |]. split.
        { rewrite Hout by lia. by apply deref_insert_eq. }
        split; [done |]. split; [done |].
        intros q Hq. rewrite Hout by lia. symmetry. apply deref_insert_ne; lia.
      * destruct (Hin p) as (c & m' & Hc1 & Hc2 & Hc3 & Hc4 & Hc5); [lia |].
        exists c, m'. split; [done |]. split; [done |].
        split; [by rewrite Hc3, length_insert |]. split; [| done].
        intros q Hq. rewrite Hc4 by done. apply deref_insert_ne; lia.
Qed.

Lemma step_lookup g N cur cur' :
  step g N cur = Some cur' →
  length cur' = length cur ∧
  (∀ p, N ≤ p → deref cur' p = deref cur p) ∧
  (∀ p, 0 ≤ p < N →
     ∃ c m m', deref cur p = Some m ∧ deref c p = Some m ∧
       update_state (g p) N cur c p = Some m' ∧
       deref cur' p = Some m' ∧
       length c = length cur ∧
       (∀ q, p ≤ q → deref c q = deref cur q) ∧
       (∀ q, q < p → deref c q = deref cur' q)).
Proof.
  unfold step. intros H.
  apply update_loop_lookup in H as (Hlen & Hout & Hin); [| lia].
  split; [done |]. split.
  - intros p Hp. apply Hout. lia.
  - intros p Hp. destruct (Hin p) as (c & m' & Hu & H1 & H2 & H3 & H4); [lia |].
    pose proof Hu as (mo & m & Ho & Hm & _)%update_state_inv.
    exists c, mo, m'. rewrite H3 in Hm by lia. simplify_eq.
    rewrite H3 by lia. done.
Qed.

(** A step succeeds as soon as every call does. *)
Lemma update_loop_total g N old n : ∀ j cur,
  0 ≤ j →
  length cur = length old →
  (∀ q, j ≤ q → deref cur q = deref old q) →
  (∀ p c, j ≤ p < j + Z.of_nat n →
     length c = length old →
     (∀ q, p ≤ q → deref c q = deref old q) →
     is_Some (update_state (g p) N old c p)) →
  is_Some (update_loop g N old n j cur).
Proof.
  induction n as [|n IH]; intros j cur Hj Hlen Hsame Hcall; simpl.
  - eauto.
  - destruct (Hcall j cur) as [m Hm]; [lia | done | done |].
    rewrite Hm. simpl. apply IH.
    + lia.
    + by rewrite length_insert.
    + intros q Hq. rewrite deref_insert_ne by lia. apply Hsame. lia.
    + intros p c Hp Hc1 Hc2. apply Hcall; [lia | done | done].
Qed.

(** ** The initial snapshot *)

Lemma fill_soldiers_length n : ∀ i ms,
  length (fill_soldiers n i ms) = length ms.
Proof.
  induction n as [|n IH]; intros i ms; simpl; [done |].
  by rewrite IH, length_insert.
Qed.

Lemma fill_soldiers_deref n : ∀ i ms p,
  0 ≤ i →
  deref (fill_soldiers n i ms) p =
    if decide (i ≤ p < i + Z.of_nat n ∧ p < Z.of_nat (length ms))
    then Some soldier else deref ms p.
Proof.
  induction n as [|n IH]; intros i ms p Hi; simpl fill_soldiers.
  - case_decide; [lia | done].
  - rewrite IH by lia. rewrite length_insert.
    repeat case_decide; try done; try lia.
    + destruct (Z.eq_dec p i) as [-> | Hne].
      * apply deref_insert_eq. lia.
      * lia.
    + destruct (Z.eq_dec p i) as [-> | Hne].
      * rewrite list_insert_ge by lia. done.
      * apply deref_insert_ne; lia.
Qed.

Lemma deref_replicate n (b : machine) p :
  deref (replicate n b) p =
    if decide (0 ≤ p < Z.of_nat n) then Some b else None.
Proof.
  case_decide as H.
  - apply deref_Some. split; [lia |]. apply lookup_replicate_2. lia.
  - apply deref_None. rewrite length_replicate. lia.
Qed.

Lemma init_from_length b N : 0 ≤ N → Z.of_nat (length (init_from b N)) = N.
Proof.
  intros H. unfold init_from.
  rewrite length_insert, fill_soldiers_length, length_insert, length_replicate.
  lia.
Qed.

Lemma init_from_deref b N j :
  1 ≤ N →
  deref (init_from b N) j =
    if decide (0 ≤ j < N)
    then Some (if j =? N - 1 then right_general
               else if j =? 0 then left_general else soldier)
    else None.
Proof.
  intros HN. case_decide as Hj.
  - unfold init_from. destruct (j =? N - 1) eqn:E1.
    + assert (j = N - 1) as -> by lia. apply deref_insert_eq.
      rewrite fill_soldiers_length, length_insert, length_replicate. lia.
    + rewrite deref_insert_ne by lia.
      rewrite fill_soldiers_deref by lia.
      rewrite length_insert, length_replicate.
      destruct (j =? 0) eqn:E0.
      * assert (j = 0) as -> by lia. case_decide; [lia |].
        apply (deref_insert_eq _ 0). rewrite length_replicate. lia.
      * case_decide; [done | lia].
  - apply deref_None. rewrite init_from_length by lia. lia.
Qed.

(** The contents that [malloc] left in the records play no role. *)
Lemma init_from_blank b N : 1 ≤ N → init_from b N = init N.
Proof.
  intros HN. apply deref_ext. intros j. unfold init.
  by rewrite !init_from_deref.
Qed.

Lemma init_deref N j m :
  1 ≤ N → deref (init N) j = Some m →
  0 ≤ j < N ∧
  m = (if j =? N - 1 then right_general
       else if j =? 0 then left_general else soldier).
Proof.
  intros HN H. unfold init in H. rewrite init_from_deref in H by done.
  case_decide; by simplify_eq.
Qed.

Lemma init_well_formed N : 1 ≤ N → well_formed N (init N).
Proof.
  intros HN. unfold well_formed. split; [apply init_from_length; lia |].
  split; [| split].
  - unfold init. rewrite init_from_deref by done.
    case_decide; [| lia]. eexists. split; [done |].
    by repeat case_match.
  - unfold init. rewrite init_from_deref by done.
    case_decide; [| lia]. eexists. split; [done |].
    case_match; [done | lia].
  - intros j m [_ ->]%init_deref; [| done].
    unfold timer_ok, color_ok.
    repeat case_match; simpl; unfold_consts; lia.
Qed.

(** ** The invariant is kept by every step, and no step fails *)

Lemma well_formed_interior N s j m :
  well_formed N s → deref s j = Some m → type m ≠ GENERAL → 0 < j < N - 1.
Proof.
  intros (Hlen & (m0 & H0 & Ht0) & (m1 & H1 & Ht1) & _) Hj Ht.
  pose proof (deref_range _ _ _ Hj).
  destruct (Z.eq_dec j 0) as [-> | ?]; [congruence |].
  destruct (Z.eq_dec j (N - 1)) as [-> | ?]; [congruence |].
  lia.
Qed.

Lemma step_total g N s : well_formed N s → is_Some (step g N s).
Proof.
  intros Hwf. pose proof Hwf as (Hlen & _ & _ & Hok).
  unfold step. apply update_loop_total; [lia | done | done |].
  intros p c Hp Hc1 Hc2.
  destruct (deref_is_Some s p) as [m Hm]; [lia |].
  apply (update_state_total _ _ _ _ _ m); try done.
  - by rewrite Hc2.
  - intros Ht. eapply well_formed_interior; eauto.
  - destruct (Hok _ _ Hm) as [[Ht _] _]. unfold_consts. lia.
Qed.

Lemma step_well_formed g N s s' :
  well_formed N s → step g N s = Some s' → well_formed N s'.
Proof.
  intros (Hlen & (m0 & H0 & Ht0) & (m1 & H1 & Ht1) & Hok) Hs.
  apply step_lookup in Hs as (Hlen' & _ & Hin).
  assert (Hend : ∀ p m, deref s p = Some m → type m = GENERAL →
            ∃ m', deref s' p = Some m' ∧ type m' = GENERAL).
  { intros p m Hp Ht. pose proof (deref_range _ _ _ Hp).
    destruct (Hin p) as (c & m2 & m' & Hm2 & Hc & Hu & Hm' & _); [lia |].
    simplify_eq. exists m'. split; [done |].
    destruct (update_state_type _ _ _ _ _ _ _ Hc Hu); congruence. }
  split; [lia |]. split; [eauto |]. split; [eauto |].
  intros j m' Hj. pose proof (deref_range _ _ _ Hj).
  destruct (Hin j) as (c & m & m2 & Hm & Hc & Hu & Hm' & _); [lia |].
  simplify_eq. destruct (Hok _ _ Hm) as [Htm Hcol]. split.
  - exact (update_state_timer _ _ _ _ _ _ _ Hm Hc Hu Htm).
  - destruct (update_state_color _ _ _ _ _ _ _ Hc Hu) as [E | E];
      unfold color_ok in *; rewrite E; auto.
Qed.

Lemma snapshot_well_formed g N k :
  1 ≤ N → ∃ s, snapshot g N k = Some s ∧ well_formed N s.
Proof.
  intros HN. induction k as [|k (s & Hs & Hwf)]; simpl.
  - eauto using init_well_formed.
  - rewrite Hs. simpl. destruct (step_total (g k) N s Hwf) as [s' Hs'].
    eauto using step_well_formed.
Qed.

(** ** The firing test *)

Lemma not_red_false m : not_red m = false ↔ color m = RED.
Proof. unfold not_red, RED. destruct (color m =? 0) eqn:E; simpl; lia. Qed.

Lemma fire_loop_spec cur n : ∀ j,
  0 ≤ j → j + Z.of_nat n ≤ Z.of_nat (length cur) →
  ∃ b, fire_loop cur n j = Some b ∧
    if b : bool
    then ∀ p m, j ≤ p < j + Z.of_nat n → deref cur p = Some m → color m = RED
    else ∃ p m, j ≤ p < j + Z.of_nat n ∧ deref cur p = Some m ∧ color m ≠ RED.
Proof.
  induction n as [|n IH]; intros j Hj Hlen; simpl.
  - exists true. split; [done | lia].
  - destruct (deref_is_Some cur j) as [m Hm]; [lia |]. rewrite Hm. simpl.
    destruct (not_red m) eqn:Hr.
    + exists false. split; [done |]. exists j, m.
      split; [lia |]. split; [done |].
      intros Hc%not_red_false. congruence.
    + destruct (IH (j + 1)) as (b & Hb & Hspec); [lia | lia |].
      exists b. split; [done |]. destruct b.
      * intros p m' Hp Hm'. destruct (Z.eq_dec p j) as [-> | Hne].
        { simplify_eq. by apply not_red_false. }
        { apply (Hspec p); [lia | done]. }
      * destruct Hspec as (p & m' & Hp & Hm' & Hc). exists p, m'.
        split; [lia | done].
Qed.

Lemma fire_spec N cur :
  Z.of_nat (length cur) = N →
  ∃ b, fire N cur = Some b ∧
    if b : bool then all_red cur
    else ∃ p m, deref cur p = Some m ∧ color m ≠ RED.
Proof.
  intros Hlen. unfold fire.
  destruct (fire_loop_spec cur (Z.to_nat N) 0) as (b & Hb & Hspec); [lia | lia |].
  exists b. split; [done |]. destruct b.
  - intros p m Hm. pose proof (deref_range _ _ _ Hm).
    apply (Hspec p); [lia | done].
  - destruct Hspec as (p & m & _ & Hm & Hc). eauto.
Qed.

Lemma fire_true_iff N cur :
  Z.of_nat (length cur) = N →
  fire N cur = Some true ↔ all_red cur.
Proof.
  intros Hlen. destruct (fire_spec N cur Hlen) as (b & Hb & Hspec).
  rewrite Hb. destruct b.
  - split; done.
  - split; [done |]. intros Hall.
    destruct Hspec as (p & m & Hm & Hc). by apply Hall in Hm.
Qed.

Lemma fire_false_black N cur :
  well_formed N cur → fire N cur = Some false → has_black cur.
Proof.
  intros (Hlen & _ & _ & Hok) Hf.
  destruct (fire_spec N cur Hlen) as (b & Hb & Hspec).
  rewrite Hf in Hb. simplify_eq.
  destruct Hspec as (p & m & Hm & Hc). exists p, m. split; [done |].
  destruct (Hok _ _ Hm) as [_ [? | ?]]; done.
Qed.

(** ** One turn of the main loop *)

Lemma loop_body_cases g N maxsteps t cur :
  well_formed N cur →
  (maxsteps = 0 ∧ loop_body g N maxsteps t cur = Break_cap) ∨
  (maxsteps ≠ 0 ∧ ∃ cur', step g N cur = Some cur' ∧ well_formed N cur' ∧
     ((all_red cur' ∧ loop_body g N maxsteps t cur = Break_fire cur') ∨
      (has_black cur' ∧ t = INT_MAX ∧
         loop_body g N maxsteps t cur = Overflow) ∨
      (has_black cur' ∧ t ≠ INT_MAX ∧
         loop_body g N maxsteps t cur =
           Continue cur' (t + 1)
             (if maxsteps >? 0 then maxsteps - 1 else maxsteps)))).
Proof.
  intros Hwf. unfold loop_body.
  destruct (maxsteps =? 0) eqn:E; [left; split; [lia | done] | right].
  split; [lia |].
  destruct (step_total g N cur Hwf) as [cur' Hs]. rewrite Hs.
  pose proof (step_well_formed _ _ _ _ Hwf Hs) as Hwf'.
  exists cur'. split; [done |]. split; [done |].
  pose proof Hwf' as (Hlen & _).
  destruct (fire_spec N cur' Hlen) as (b & Hb & Hspec). rewrite Hb.
  destruct b.
  - by left.
  - right. pose proof (fire_false_black _ _ Hwf' Hb) as Hbl.
    destruct (t =? INT_MAX) eqn:Et; [left | right];
      (split; [done |]; split; [lia | done]).
Qed.

(** ** The whole loop *)

(** When the loop reports firing, the last snapshot printed is all red and
    every snapshot printed by the loop before it has a black machine. *)
Lemma main_loop_fired g N fuel : ∀ k maxsteps t cur printed t' printed',
  well_formed N cur →
  main_loop g fuel k N maxsteps t cur printed = Fired t' printed' →
  ∃ s more, printed' = s :: more ++ printed ∧ all_red s ∧
    Forall has_black more ∧ t' = t + Z.of_nat (length more).
Proof.
  induction fuel as [|fuel IH]; intros k ms t cur printed t' printed' Hwf H;
    simpl in H; [done |].
  destruct (loop_body_cases (g k) N ms t cur Hwf)
    as [[_ E] | (_ & cur' & _ & Hwf' & [[Hr E] | [(_ & _ & E) | (Hb & _ & E)]])];
    rewrite E in H; try done.
  - simplify_eq. exists cur', []. simpl. split; [done |].
    split; [done |]. split; [constructor | lia].
  - apply IH in H as (s & more & -> & Hs & Hmore & ->); [| done].
    exists s, (more ++ [cur']). rewrite <- app_assoc. simpl.
    split; [done |]. split; [done |]. split.
    + apply Forall_app. split; [done |]. by constructor.
    + rewrite length_app. simpl. lia.
Qed.



Lemma main_loop_not_config g N fuel : ∀ k maxsteps t cur printed,
  main_loop g fuel k N maxsteps t cur printed ≠ ConfigError.
Proof.
  induction fuel as [|fuel IH]; intros k ms t cur printed; simpl; [done |].
  destruct (loop_body (g k) N ms t cur); done.
Qed.

(** ** Colours and types along a step *)

Lemma step_keeps_red g N s s' j m :
  step g N s = Some s' → deref s j = Some m → color m = RED →
  ∃ m', deref s' j = Some m' ∧ color m' = RED.
Proof.
  intros Hs Hm Hc. apply step_lookup in Hs as (_ & Hout & Hin).
  pose proof (deref_range _ _ _ Hm).
  destruct (Z_lt_dec j N) as [Hj | Hj].
  - destruct (Hin j) as (c & m1 & m' & Hm1 & Hc1 & Hu & Hm' & _); [lia |].
    simplify_eq. exists m'. split; [done |].
    destruct (update_state_color _ _ _ _ _ _ _ Hc1 Hu); congruence.
  - exists m. rewrite Hout by lia. done.
Qed.

Lemma step_keeps_general g N s s' j m :
  step g N s = Some s' → deref s j = Some m → type m = GENERAL →
  ∃ m', deref s' j = Some m' ∧ type m' = GENERAL.
Proof.
  intros Hs Hm Hc. apply step_lookup in Hs as (_ & Hout & Hin).
  pose proof (deref_range _ _ _ Hm).
  destruct (Z_lt_dec j N) as [Hj | Hj].
  - destruct (Hin j) as (c & m1 & m' & Hm1 & Hc1 & Hu & Hm' & _); [lia |].
    simplify_eq. exists m'. split; [done |].
    destruct (update_state_type _ _ _ _ _ _ _ Hc1 Hu); congruence.
  - exists m. rewrite Hout by lia. done.
Qed.

(** ** What [main] prints *)

(** Every snapshot printed by the loop is a snapshot of the automaton left
    running: the statements about [snapshot] cover all that a run shows. *)
Lemma main_loop_printed g N fuel : ∀ k maxsteps t cur printed t' printed',
  snapshot g N k = Some cur →
  (∀ s, s ∈ printed → ∃ i, snapshot g N i = Some s) →
  main_loop g fuel k N maxsteps t cur printed = Fired t' printed' ∨
  main_loop g fuel k N maxsteps t cur printed = Capped t' printed' →
  ∀ s, s ∈ printed' → ∃ i, snapshot g N i = Some s.
Proof.
  induction fuel as [|fuel IH]; intros k ms t cur printed t' printed' Hk Hp H;
    simpl in H; [by destruct H |].
  unfold loop_body in H. destruct (ms =? 0).
  { destruct H as [H | H]; [done | by simplify_eq]. }
  destruct (step (g k) N cur) as [cur'|] eqn:Hs; [| by destruct H].
  assert (Hk' : snapshot g N (S k) = Some cur') by (simpl; by rewrite Hk).
  assert (Hp' : ∀ s, s ∈ cur' :: printed → ∃ i, snapshot g N i = Some s).
  { intros s [-> | Hin]%elem_of_cons; eauto. }
  destruct (fire N cur') as [[|]|]; [| | by destruct H].
  - destruct H as [H | H]; [by simplify_eq | done].
  - destruct (t =? INT_MAX); [by destruct H |]. eapply IH; eauto.
Qed.

(** * The claims *)

(** ** C1: which generation [update_state] reads *)


(** ** C2: the firing test *)

(** C2: after a step that produced the snapshot [cur'], the detector returns
    true exactly when every position [0..N-1] of [cur'] holds a red machine,
    the turn of the loop ends in [Break_fire] exactly then, and the loop then
    stops with the outcome [Fired]. *)
Theorem driver_fires_iff_all_red (g : nat → Z → Z) (fuel k : nat)
    (N maxsteps t : Z) (cur cur' : list machine)
    (printed : list (list machine)) :
  Z.of_nat (length cur) = N →
  maxsteps ≠ 0 →
  step (g k) N cur = Some cur' →
  (fire N cur' = Some true ↔
     ∀ j, 0 ≤ j < N → ∃ m, deref cur' j = Some m ∧ color m = RED) ∧
  (loop_body (g k) N maxsteps t cur = Break_fire cur' ↔
     fire N cur' = Some true) ∧
  (fire N cur' = Some true →
     main_loop g (S fuel) k N maxsteps t cur printed
       = Fired t (cur' :: printed)) ∧
  (fire N cur' = Some false → t ≠ INT_MAX →
     main_loop g (S fuel) k N maxsteps t cur printed
       = main_loop g fuel (S k) N
           (if maxsteps >? 0 then maxsteps - 1 else maxsteps) (t + 1)
           cur' (cur' :: printed)).
Proof.
  intros Hlen Hms Hs.
  pose proof (step_lookup _ _ _ _ Hs) as (Hlen' & _).
  assert (Hl : Z.of_nat (length cur') = N) by lia.
  split; [| split; [| split]].
  - rewrite (fire_true_iff N cur' Hl). split.
    + intros Hall j Hj. destruct (deref_is_Some cur' j) as [m Hm]; [lia |].
      exists m. split; [done |]. by apply (Hall j).
    + intros Hall j m Hm. pose proof (deref_range _ _ _ Hm).
      destruct (Hall j) as (m' & Hm' & Hc); [lia |]. congruence.
  - unfold loop_body. destruct (maxsteps =? 0) eqn:E; [lia |]. rewrite Hs.
    destruct (fire N cur') as [[|]|]; [done | | done].
    destruct (t =? INT_MAX); done.
  - intros Hf. simpl. unfold loop_body.
    destruct (maxsteps =? 0) eqn:E; [lia |]. by rewrite Hs, Hf.
  - intros Hf Ht. simpl. unfold loop_body.
    destruct (maxsteps =? 0) eqn:E; [lia |]. rewrite Hs, Hf.
    destruct (t =? INT_MAX) eqn:E'; [lia | done].
Qed.

Lemma driver_fires_iff_all_red_witness :
  Z.of_nat (length squad3_step3) = 3 ∧
  step (g0 3%nat) 3 squad3_step3 = Some squad3_step4 ∧
  (loop_body (g0 3%nat) 3 (-1) 4 squad3_step3 = Break_fire squad3_step4 ↔
     fire 3 squad3_step4 = Some true).
Proof.
  split; [reflexivity |]. split; [vm_compute; reflexivity |].
  apply (driver_fires_iff_all_red g0 0 3 3 (-1) 4 squad3_step3 squad3_step4 []).
  - reflexivity.
  - lia.
  - vm_compute; reflexivity.
Defined.

(** ** C3: the first all-red snapshot *)

(** C3 as stated fails for [N = 2]: the run fires at its first step and the
    snapshot before it, the initial one, has no black machine. *)
Lemma first_firing_after_all_red_N2 :
  (∃ s, main g0 5 true (Some 2) None = Fired 1 [s; init 2]) ∧
  ¬ has_black (init 2).
Proof.
  split.
  - vm_compute. eexists. reflexivity.
  - intros (j & m & Hm & Hc). apply init_deref in Hm as [Hj ->]; [| lia].
    revert Hc. repeat case_match; try discriminate. lia.
Qed.

(** C3 (amended): for a line of at least three machines, when the run reports
    firing the last snapshot printed is all red and every snapshot printed
    before it, the initial one included, has a black machine; the number
    reported is the number of steps made. *)
Theorem first_firing_is_first_all_red (g : nat → Z → Z) (fuel : nat)
    (alloc_ok : bool) (N : Z) (t_opt : option Z) (t : Z)
    (printed : list (list machine)) :
  3 ≤ N →
  main g fuel alloc_ok (Some N) t_opt = Fired t printed →
  ∃ s earlier, printed = s :: earlier ∧ earlier ≠ [] ∧
    all_red s ∧ Forall has_black earlier ∧ t = Z.of_nat (length earlier).
Proof.
  intros HN H. unfold main, main_with in H. simpl in H.
  destruct ((N <=? 0) || (N >? MAX_LENGTH)); [done |].
  destruct alloc_ok; [simpl in H | done].
  apply main_loop_fired in H as (s & more & -> & Hs & Hmore & ->);
    [| apply init_well_formed; lia].
  exists s, (more ++ [init N]). split; [done |].
  split; [by destruct more |]. split; [done |]. split.
  - apply Forall_app. split; [done |]. constructor; [| done].
    exists 1, soldier. split; [| done].
    unfold init. rewrite init_from_deref by lia.
    case_decide; [| lia]. repeat case_match; try done; lia.
  - rewrite length_app. simpl. lia.
Qed.

Lemma first_firing_is_first_all_red_witness :
  main g0 10 true (Some 3) None = Fired 4 printed3 ∧
  ∃ s earlier, printed3 = s :: earlier ∧ earlier ≠ [] ∧
    all_red s ∧ Forall has_black earlier ∧ 4 = Z.of_nat (length earlier).
Proof.
  split; [vm_compute; reflexivity |].
  apply (first_firing_is_first_all_red g0 10 true 3 None 4 printed3).
  - lia.
  - vm_compute; reflexivity.
Defined.

(** ** C4: red stays red *)

(** C4: in every run, a machine that is red in the snapshot after [k] steps
    is red in the snapshot after [k + n] steps, for every [n]. *)
Theorem red_stays_red (g : nat → Z → Z) (N : Z) (k n : nat)
    (s : list machine) (j : Z) (m : machine) :
  1 ≤ N →
  snapshot g N k = Some s →
  deref s j = Some m →
  color m = RED →
  ∃ s' m', snapshot g N (k + n) = Some s' ∧ deref s' j = Some m' ∧
    color m' = RED.
Proof.
  intros HN Hs Hm Hc. induction n as [|n (s1 & m1 & Hs1 & Hm1 & Hc1)].
  - rewrite Nat.add_0_r. eauto.
  - rewrite Nat.add_succ_r. simpl. rewrite Hs1. simpl.
    destruct (snapshot_well_formed g N (k + n) HN) as (s1' & Hs1' & Hwf).
    simplify_eq.
    destruct (step_total (g (k + n)%nat) N s1 Hwf) as [s2 Hs2].
    destruct (step_keeps_red _ _ _ _ _ _ Hs2 Hm1 Hc1) as (m2 & Hm2 & Hc2).
    eauto.
Qed.

Lemma red_stays_red_witness :
  ∃ s' m', snapshot g0 3 (0 + 4) = Some s' ∧ deref s' 0 = Some m' ∧
    color m' = RED.
Proof.
  apply (red_stays_red g0 3 0 4 (init 3) 0 left_general).
  - lia.
  - reflexivity.
  - reflexivity.
  - reflexivity.
Defined.

(** ** C5: a General that receives Reset *)



(** ** C6: the range of the timer *)

(** C6 (fails on the code): in the run of a line of four, the snapshot
    printed after step 6 holds a soldier whose timer is [-1]: it has just sent
    Promote, a path that sets the timer to 0 and then decrements it. *)
Theorem timer_negative_after_promote :
  ∃ s7 s6 earlier m,
    main g0 10 true (Some 4) None = Fired 7 (s7 :: s6 :: earlier) ∧
    snapshot g0 4 6 = Some s6 ∧
    deref s6 1 = Some m ∧ type m = SOLDIER ∧ message m = PROMOTE_MSG ∧
    timer m = -1.
Proof. vm_compute. do 4 eexists. repeat split. Qed.

(** Every timer of every snapshot lies in [-1..3]. *)
Lemma timer_range g N k s j m :
  1 ≤ N → snapshot g N k = Some s → deref s j = Some m → -1 ≤ timer m ≤ 3.
Proof.
  intros HN Hs Hm.
  destruct (snapshot_well_formed g N k HN) as (s' & Hs' & _ & _ & _ & Hok).
  simplify_eq. by destruct (Hok _ _ Hm) as [[? _] _].
Qed.

(** ** C7: the step cap *)




(** ** C8: a line of one machine *)

(** C8 as stated fails: the run of a single machine makes one step and
    reports 1, not 0. *)
Lemma single_machine_reports_one :
  (∃ s, main g0 10 true (Some 1) None = Fired 1 [s; init 1]) ∧
  (∀ printed, main g0 10 true (Some 1) None ≠ Fired 0 printed).
Proof.
  split.
  - vm_compute. eexists. reflexivity.
  - intros printed. vm_compute. discriminate.
Qed.

(** C8 (amended): for [N = 1] the initial snapshot is already all red, but
    the firing test comes after a step: unless the cap is 0, the run makes
    one step, fires, and reports 1. *)
Theorem single_machine_fires_after_one_step (g : nat → Z → Z) (fuel : nat)
    (t_opt : option Z) :
  default (-1) t_opt ≠ 0 →
  ∃ s, main g (S fuel) true (Some 1) t_opt = Fired 1 [s; init 1] ∧
    all_red (init 1) ∧ all_red s.
Proof.
  intros Hc. unfold main, main_with.
  set (c := default (-1) t_opt) in *. simpl.
  unfold loop_body. destruct (c =? 0) eqn:E; [lia |].
  exists [Machine PASSIVE 0 RED GENERAL (g 0%nat 0) NO_MSG FALSE].
  split; [reflexivity |].
  split; intros j m Hm; apply deref_Some in Hm as [Hj Hm];
    destruct (Z.to_nat j) as [|n]; simpl in Hm; by simplify_eq.
Qed.

Lemma single_machine_fires_after_one_step_witness :
  ∃ s, main g0 1 true (Some 1) None = Fired 1 [s; init 1] ∧
    all_red (init 1) ∧ all_red s.
Proof.
  apply (single_machine_fires_after_one_step g0 0 None).
  discriminate.
Defined.

(** ** C9: the supported lengths *)

(** C9: [main] reports the configuration error exactly when [N <= 0] or
    [N > 1024], and then nothing is printed and no step runs; for every other
    [N] it goes on to allocate and, the records allocated, enters the loop
    with the initial snapshot. *)
Theorem length_check (g : nat → Z → Z) (fuel : nat) (alloc_ok : bool)
    (N maxsteps : Z) :
  (main_with g fuel alloc_ok N maxsteps = ConfigError ↔ N ≤ 0 ∨ N > 1024) ∧
  (1 ≤ N ≤ 1024 →
     main_with g fuel alloc_ok N maxsteps =
       if alloc_ok
       then main_loop g fuel 0 N maxsteps 1 (init N) [init N]
       else AllocError).
Proof.
  unfold main_with.
  destruct ((N <=? 0) || (N >? MAX_LENGTH)) eqn:E; unfold MAX_LENGTH in E.
  - split; [split; [lia | done] | lia].
  - split.
    + split; [| lia]. destruct alloc_ok; simpl; [| done].
      intros H. by apply main_loop_not_config in H.
    + intros _. by destruct alloc_ok.
Qed.

Lemma length_check_witness :
  main_with g0 5 true 1025 (-1) = ConfigError ∧
  main_with g0 5 true 0 (-1) = ConfigError ∧
  main_with g0 5 true 4 0 = Capped 1 [init 4].
Proof.
  split; [| split].
  - apply (proj2 (proj1 (length_check g0 5 true 1025 (-1)))). right. lia.
  - apply (proj2 (proj1 (length_check g0 5 true 0 (-1)))). left. lia.
  - rewrite (proj2 (length_check g0 5 true 4 0)); [reflexivity | lia].
Defined.

(** ** C10: the neighbour accesses stay in bounds *)

(** C10: in every snapshot of every run the two end positions hold Generals,
    so every machine that is not a General sits at an interior position and
    has both neighbours; the next step then succeeds, that is, none of its
    [update_state] calls dereferences an entry outside [0..N-1]; and a
    General of this snapshot is a General of the next. *)
Theorem neighbour_accesses_in_bounds (g : nat → Z → Z) (N : Z) (k : nat) :
  1 ≤ N →
  ∃ s s',
    snapshot g N k = Some s ∧ Z.of_nat (length s) = N ∧
    (∃ m, deref s 0 = Some m ∧ type m = GENERAL) ∧
    (∃ m, deref s (N - 1) = Some m ∧ type m = GENERAL) ∧
    (∀ j m, deref s j = Some m → type m ≠ GENERAL →
       0 < j < N - 1 ∧ is_Some (deref s (j - 1)) ∧ is_Some (deref s (j + 1))) ∧
    step (g k) N s = Some s' ∧
    (∀ j m, deref s j = Some m → type m = GENERAL →
       ∃ m', deref s' j = Some m' ∧ type m' = GENERAL).
Proof.
  intros HN.
  destruct (snapshot_well_formed g N k HN) as (s & Hs & Hwf).
  destruct (step_total (g k) N s Hwf) as [s' Hs'].
  pose proof Hwf as (Hlen & H0 & H1 & _).
  exists s, s'. do 4 (split; [done |]). split; [| split; [done |]].
  - intros j m Hm Ht.
    pose proof (well_formed_interior _ _ _ _ Hwf Hm Ht) as Hj.
    split; [done |]. split; apply deref_is_Some; lia.
  - intros j m Hm Ht. eapply step_keeps_general; eauto.
Qed.

Lemma neighbour_accesses_in_bounds_witness :
  ∃ s s',
    snapshot g0 3 2 = Some s ∧ Z.of_nat (length s) = 3 ∧
    (∃ m, deref s 0 = Some m ∧ type m = GENERAL) ∧
    (∃ m, deref s (3 - 1) = Some m ∧ type m = GENERAL) ∧
    (∀ j m, deref s j = Some m → type m ≠ GENERAL →
       0 < j < 3 - 1 ∧ is_Some (deref s (j - 1)) ∧ is_Some (deref s (j + 1))) ∧
    step (g0 2%nat) 3 s = Some s' ∧
    (∀ j m, deref s j = Some m → type m = GENERAL →
       ∃ m', deref s' j = Some m' ∧ type m' = GENERAL).
Proof.
  apply (neighbour_accesses_in_bounds g0 3 2). lia.
Defined.

(** * Further properties of the program *)

(** ** The values of the fields *)

Lemma soldier_rule_activity d lm rm mo m m' :
  soldier_rule d lm rm mo m = Some m' →
  activity m = PASSIVE ∨ activity m = ACTIVE →
  activity m' = PASSIVE ∨ activity m' = ACTIVE.
Proof. rule_field. Qed.

Lemma soldier_rule_testing d lm rm mo m m' :
  soldier_rule d lm rm mo m = Some m' →
  testing m = FALSE ∨ testing m = TRUE →
  testing m' = FALSE ∨ testing m' = TRUE.
Proof. rule_field. Qed.

Lemma soldier_rule_message d lm rm mo m m' :
  soldier_rule d lm rm mo m = Some m' →
  NO_MSG ≤ lm ≤ PROMOTE_MSG → NO_MSG ≤ rm ≤ PROMOTE_MSG →
  NO_MSG ≤ message m' ≤ PROMOTE_MSG.
Proof. rule_field. Qed.

Lemma soldier_rule_direction d lm rm mo m m' :
  soldier_rule d lm rm mo m = Some m' →
  message m' ≠ NO_MSG → LEFT ≤ message_direction m' ≤ BROADCAST.
Proof. rule_field. Qed.

Lemma soldier_rule_red d lm rm mo m m' :
  soldier_rule d lm rm mo m = Some m' →
  (color m = RED ↔ type m = GENERAL) →
  (color m' = RED ↔ type m' = GENERAL).
Proof. rule_field. Qed.

Lemma soldier_rule_general_message d lm rm mo m m' :
  soldier_rule d lm rm mo m = Some m' →
  type m ≠ GENERAL →
  type m' = GENERAL → message m' = RESET_MSG.
Proof. rule_field. Qed.

Lemma general_rule_activity d lm rm tl tr mo m m' :
  general_rule d lm rm tl tr mo m = Some m' →
  activity m' = PASSIVE ∨ activity m' = ACTIVE.
Proof. rule_field. Qed.

Lemma general_rule_testing d lm rm tl tr mo m m' :
  general_rule d lm rm tl tr mo m = Some m' →
  testing m = FALSE ∨ testing m = TRUE →
  testing m' = FALSE ∨ testing m' = TRUE.
Proof. rule_field. Qed.

(** A General answers or starts a round; it never relays what it receives. *)
Lemma general_rule_message d lm rm tl tr mo m m' :
  general_rule d lm rm tl tr mo m = Some m' →
  m' = set_activity PASSIVE m ∨
  message m' = NO_MSG ∨ message m' = TEST_MSG ∨ message m' = MID_ACK_MSG.
Proof. rule_cases; auto. Qed.

Lemma general_rule_direction d lm rm tl tr mo m m' :
  general_rule d lm rm tl tr mo m = Some m' →
  (message m ≠ NO_MSG → LEFT ≤ message_direction m ≤ BROADCAST) →
  message m' ≠ NO_MSG → LEFT ≤ message_direction m' ≤ BROADCAST.
Proof. rule_field. Qed.

Lemma soldier_rule_fields d lm rm m m' :
  soldier_rule d lm rm m m = Some m' →
  NO_MSG ≤ lm ≤ PROMOTE_MSG → NO_MSG ≤ rm ≤ PROMOTE_MSG →
  type m ≠ GENERAL →
  fields_ok m → fields_ok m'.
Proof.
  intros H Hl Hr Ht (Ha & Hty & Hte & Hm & Hd & Hc & Hg).
  split; [eapply soldier_rule_activity; eauto |].
  split; [destruct (soldier_rule_type _ _ _ _ _ _ H) as [-> | ->]; auto |].
  split; [eapply soldier_rule_testing; eauto |].
  split; [eapply soldier_rule_message; eauto |].
  split; [eapply soldier_rule_direction; eauto |].
  split; [eapply soldier_rule_red; eauto |].
  intros Hg'. rewrite (soldier_rule_general_message _ _ _ _ _ _ H Ht Hg').
  unfold_consts. lia.
Qed.

Lemma general_rule_fields d lm rm tl tr m m' :
  general_rule d lm rm tl tr m m = Some m' →
  fields_ok m → fields_ok m'.
Proof.
  intros H (Ha & Hty & Hte & Hm & Hd & Hc & Hg).
  destruct (general_rule_timer _ _ _ _ _ _ _ _ H) as [_ Et].
  pose proof (general_rule_color _ _ _ _ _ _ _ _ H) as Ec.
  split; [eapply general_rule_activity; eauto |].
  split; [by rewrite Et |].
  split; [eapply general_rule_testing; eauto |].
  assert (Hmsg : NO_MSG ≤ message m' ≤ PROMOTE_MSG ∧
            (type m' = GENERAL →
             message m' ≠ MID_TEST_MSG ∧ message m' ≠ PROMOTE_MSG)).
  { destruct (general_rule_message _ _ _ _ _ _ _ _ H) as [-> | Hcase].
    - simpl. split; [done |]. exact Hg.
    - unfold_consts. lia. }
  split; [apply Hmsg |].
  split; [eapply general_rule_direction; eauto |].
  split; [by rewrite Ec, Et | apply Hmsg].
Qed.

Lemma msg_to_right_range l :
  fields_ok l → NO_MSG ≤ msg_to_right l ≤ PROMOTE_MSG.
Proof.
  unfold fields_ok, msg_to_right. case_match; unfold_consts; lia.
Qed.

Lemma msg_to_left_range r :
  fields_ok r → NO_MSG ≤ msg_to_left r ≤ PROMOTE_MSG.
Proof.
  unfold fields_ok, msg_to_left. case_match; unfold_consts; lia.
Qed.

Lemma update_state_fields d N old cur j m m' :
  line_ok old →
  deref old j = Some m → deref cur j = Some m →
  update_state d N old cur j = Some m' →
  fields_ok m'.
Proof.
  intros Hok Ho Hm
    (mo & m1 & Ho1 & Hm1 & [(Ht & lm & rm & _ & _ & H) | (Ht & l & r & Hl & Hr & H)])%update_state_inv;
    simplify_eq.
  - eapply general_rule_fields; eauto.
  - eapply soldier_rule_fields; eauto.
    + apply msg_to_right_range. eauto.
    + apply msg_to_left_range. eauto.
Qed.

Lemma init_line_ok N : 1 ≤ N → line_ok (init N).
Proof.
  intros HN j m [_ ->]%init_deref; [| done].
  unfold fields_ok. repeat case_match; simpl; unfold_consts;
    repeat split; first [ lia | tauto | intros; lia ].
Qed.

Lemma step_line_ok g N s s' :
  well_formed N s → line_ok s → step g N s = Some s' → line_ok s'.
Proof.
  intros (Hlen & _ & _ & Hok) Hl Hs.
  apply step_lookup in Hs as (Hlen' & _ & Hin).
  intros j m' Hj. pose proof (deref_range _ _ _ Hj).
  destruct (Hin j) as (c & m & m2 & Hm & Hc & Hu & Hm' & _); [lia |].
  simplify_eq. eapply update_state_fields; eauto.
Qed.

Lemma snapshot_line_ok g N k s :
  1 ≤ N → snapshot g N k = Some s → well_formed N s ∧ line_ok s.
Proof.
  intros HN. revert s. induction k as [|k IH]; intros s Hs; simpl in Hs.
  - simplify_eq. split; [by apply init_well_formed | by apply init_line_ok].
  - destruct (snapshot g N k) as [s0|]; [simpl in Hs | done].
    destruct (IH s0 eq_refl) as [Hwf Hl].
    split; [eapply step_well_formed | eapply step_line_ok]; eauto.
Qed.

(** ** The uninitialised [dir] *)

Lemma same_signal_refl m : same_signal m m.
Proof. by repeat split. Qed.

(** The old record is read for its activity, testing flag, timer and
    message, and for its direction only when it has just sent Promote. *)
Lemma soldier_rule_old_dir d lm rm mo m x :
  message mo ≠ PROMOTE_MSG →
  soldier_rule d lm rm (set_message_direction x mo) m
    = soldier_rule d lm rm mo m.
Proof.
  destruct mo as [a t c ty dd ms te]. cbn. intros Hms.
  unfold soldier_rule. cbn.
  destruct (lm =? PROMOTE_MSG); [done |].
  destruct (rm =? PROMOTE_MSG); [done |].
  destruct (ms =? PROMOTE_MSG) eqn:E; [lia | done].
Qed.

Lemma general_rule_old_dir d lm rm tl tr mo m x :
  general_rule d lm rm tl tr (set_message_direction x mo) m
    = general_rule d lm rm tl tr mo m.
Proof. by destruct mo. Qed.

(** The direction of the record being written survives only together with
    [NO_MSG], and so does the uninitialised [dir]. *)
Lemma soldier_rule_cur_dir d d' lm rm mo m y :
  option_Forall2 same_signal
    (soldier_rule d lm rm mo m)
    (soldier_rule d' lm rm mo (set_message_direction y m)).
Proof.
  destruct mo as [a t c ty dd ms te], m as [a1 t1 c1 ty1 dd1 ms1 te1].
  unfold_rule. unfold_consts.
  repeat case_match; close_same_signal.
Qed.

Lemma general_rule_cur_dir d d' lm rm tl tr mo m y :
  message m = NO_MSG ∨ y = message_direction m →
  option_Forall2 same_signal
    (general_rule d lm rm tl tr mo m)
    (general_rule d' lm rm tl tr mo (set_message_direction y m)).
Proof.
  destruct mo as [a t c ty dd ms te], m as [a1 t1 c1 ty1 dd1 ms1 te1].
  cbn. intros H. unfold_rule. unfold_consts.
  destruct tl, tr; cbn;
    repeat (case_match; cbn);
    constructor; unfold same_signal, NO_MSG in *; cbn;
    repeat split; intros; destruct H; congruence.
Qed.


Lemma same_signal_eta m m' :
  same_signal m m' →
  ∃ x, m' = set_message_direction x m ∧
    (message m = NO_MSG ∨ x = message_direction m).
Proof.
  destruct m as [a t c ty d ms te], m' as [a' t' c' ty' d' ms' te'].
  unfold same_signal, set_message_direction. cbn.
  intros (-> & -> & -> & -> & -> & -> & Hd). exists d'. split; [done |].
  destruct (Z.eq_dec ms' NO_MSG) as [-> | Hne]; [by left |].
  right. symmetry. auto.
Qed.

Lemma same_signal_msg_to_right m m' :
  same_signal m m' → msg_to_right m = msg_to_right m'.
Proof.
  intros (x & -> & [E | ->])%same_signal_eta; [| by destruct m].
  unfold msg_to_right. cbn. rewrite E. by repeat case_match.
Qed.

Lemma same_signal_msg_to_left m m' :
  same_signal m m' → msg_to_left m = msg_to_left m'.
Proof.
  intros (x & -> & [E | ->])%same_signal_eta; [| by destruct m].
  unfold msg_to_left. cbn. rewrite E. by repeat case_match.
Qed.

Lemma soldier_rule_same_signal d d' lm rm mo mo' m m' :
  same_signal mo mo' → same_signal m m' →
  option_Forall2 same_signal
    (soldier_rule d lm rm mo m) (soldier_rule d' lm rm mo' m').
Proof.
  intros (x & -> & Ho)%same_signal_eta (y & -> & _)%same_signal_eta.
  destruct (Z.eq_dec (message mo) PROMOTE_MSG) as [E | E].
  - destruct Ho as [Ho | ->]; [rewrite E in Ho; done |].
    replace (set_message_direction (message_direction mo) mo)
      with mo by by destruct mo.
    apply soldier_rule_cur_dir.
  - rewrite soldier_rule_old_dir by done. apply soldier_rule_cur_dir.
Qed.

Lemma general_rule_same_signal d d' lm rm tl tr mo mo' m m' :
  same_signal mo mo' → same_signal m m' →
  option_Forall2 same_signal
    (general_rule d lm rm tl tr mo m) (general_rule d' lm rm tl tr mo' m').
Proof.
  intros (x & -> & _)%same_signal_eta (y & -> & Hm)%same_signal_eta.
  rewrite general_rule_old_dir. by apply general_rule_cur_dir.
Qed.

Lemma same_signals_deref s s' j :
  same_signals s s' → option_Forall2 same_signal (deref s j) (deref s' j).
Proof.
  intros H. unfold deref. destruct (j <? 0); [constructor |].
  by apply Forall2_lookup.
Qed.

Lemma same_signals_type s s' j :
  same_signals s s' → type <$> deref s j = type <$> deref s' j.
Proof.
  intros H. destruct (same_signals_deref s s' j H) as [m m' Hm |]; [| done].
  cbn. f_equal. apply Hm.
Qed.

Lemma same_signals_left_msg s s' j :
  same_signals s s' → left_msg s j = left_msg s' j.
Proof.
  intros H. unfold left_msg. destruct (j =? 0); [done |].
  destruct (same_signals_deref s s' (j - 1) H) as [m m' Hm |]; [| done].
  cbn. f_equal. by apply same_signal_msg_to_right.
Qed.

Lemma same_signals_right_msg N s s' j :
  same_signals s s' → right_msg N s j = right_msg N s' j.
Proof.
  intros H. unfold right_msg. destruct (j <? N - 1); [| done].
  destruct (same_signals_deref s s' (j + 1) H) as [m m' Hm |]; [| done].
  cbn. f_equal. by apply same_signal_msg_to_left.
Qed.

Lemma update_state_same_signal d d' N old old' cur cur' j :
  same_signals old old' → same_signals cur cur' →
  option_Forall2 same_signal
    (update_state d N old cur j) (update_state d' N old' cur' j).
Proof.
  intros Ho Hc. unfold update_state.
  destruct (same_signals_deref old old' j Ho) as [mo mo' Hmo |];
    [cbn | constructor].
  destruct (same_signals_deref cur cur' j Hc) as [m m' Hm |];
    [cbn | constructor].
  replace (type mo') with (type mo) by apply Hmo.
  destruct (type mo =? GENERAL).
  - unfold update_general.
    rewrite <- (same_signals_left_msg old old' j Ho).
    rewrite <- (same_signals_right_msg N old old' j Ho).
    rewrite <- !(same_signals_type cur cur' _ Hc).
    destruct (left_msg old j) as [lm|]; [cbn | constructor].
    destruct (right_msg N old j) as [rm|]; [cbn | constructor].
    by apply general_rule_same_signal.
  - unfold update_soldier.
    destruct (same_signals_deref old old' (j - 1) Ho) as [l l' Hl |];
      [cbn | constructor].
    destruct (same_signals_deref old old' (j + 1) Ho) as [r r' Hr |];
      [cbn | constructor].
    rewrite <- (same_signal_msg_to_right l l' Hl).
    rewrite <- (same_signal_msg_to_left r r' Hr).
    by apply soldier_rule_same_signal.
Qed.

Lemma update_loop_same_signals g g' N old old' n : ∀ j cur cur',
  same_signals old old' → same_signals cur cur' →
  option_Forall2 same_signals
    (update_loop g N old n j cur) (update_loop g' N old' n j cur').
Proof.
  induction n as [|n IH]; intros j cur cur' Ho Hc; cbn.
  - by constructor.
  - destruct (update_state_same_signal (g j) (g' j) N old old' cur cur' j Ho Hc)
      as [m m' Hm |]; [cbn | constructor].
    apply IH; [done |]. by apply Forall2_insert.
Qed.

Lemma step_same_signals g g' N s s' :
  same_signals s s' →
  option_Forall2 same_signals (step g N s) (step g' N s').
Proof. intros H. by apply update_loop_same_signals. Qed.

Lemma fire_loop_same_signals s s' n : ∀ j,
  same_signals s s' → fire_loop s n j = fire_loop s' n j.
Proof.
  induction n as [|n IH]; intros j H; cbn; [done |].
  destruct (same_signals_deref s s' j H) as [m m' Hm |]; [cbn | done].
  unfold not_red. replace (color m') with (color m) by apply Hm.
  by rewrite IH.
Qed.

Lemma main_loop_same_outcome g g' N fuel : ∀ k maxsteps t cur cur' p p',
  same_signals cur cur' → Forall2 same_signals p p' →
  same_outcome (main_loop g fuel k N maxsteps t cur p)
               (main_loop g' fuel k N maxsteps t cur' p').
Proof.
  induction fuel as [|fuel IH]; intros k ms t cur cur' p p' Hc Hp; cbn;
    [done |].
  unfold loop_body. destruct (ms =? 0); [done |].
  destruct (step_same_signals (g k) (g' k) N cur cur' Hc) as [s s' Hs |];
    [| done].
  unfold fire. rewrite <- (fire_loop_same_signals s s' _ 0 Hs).
  destruct (fire_loop s (Z.to_nat N) 0) as [[|]|]; [| | done].
  - split; [done |]. by constructor.
  - destruct (t =? INT_MAX); [done |].
    apply IH; [done |]. by constructor.
Qed.

Lemma same_signals_refl s : same_signals s s.
Proof. apply Forall_Forall2_diag, Forall_forall. intros. apply same_signal_refl. Qed.

(** X5: whatever values the uninitialised [dir] takes, two runs on the same
    options end the same way and report the same number, and the snapshots
    they print agree in every field except the direction of machines that
    carry no message. *)
Theorem run_independent_of_uninitialised_dir (g g' : nat → Z → Z)
    (fuel : nat) (alloc_ok : bool) (n_opt t_opt : option Z) :
  same_outcome (main g fuel alloc_ok n_opt t_opt)
               (main g' fuel alloc_ok n_opt t_opt).
Proof.
  unfold main, main_with.
  destruct (_ || _); [done |]. destruct alloc_ok; [cbn | done].
  apply main_loop_same_outcome.
  - apply same_signals_refl.
  - constructor; [apply same_signals_refl | constructor].
Qed.

(** ** Invariants of every run *)

(** X1: in every snapshot of every run, activity, type, testing and color
    hold one of their two values and the message one of its six; a machine
    that carries a message has one of the three directions, so that the
    uninitialised [dir] is only ever stored together with [NO_MSG]. *)
Theorem fields_stay_in_range (g : nat → Z → Z) (N : Z) (k : nat)
    (s : list machine) (j : Z) (m : machine) :
  1 ≤ N →
  snapshot g N k = Some s →
  deref s j = Some m →
  (activity m = PASSIVE ∨ activity m = ACTIVE) ∧
  (type m = GENERAL ∨ type m = SOLDIER) ∧
  (testing m = FALSE ∨ testing m = TRUE) ∧
  (color m = RED ∨ color m = BLACK) ∧
  NO_MSG ≤ message m ≤ PROMOTE_MSG ∧
  (message m ≠ NO_MSG → LEFT ≤ message_direction m ≤ BROADCAST).
Proof.
  intros HN Hs Hm.
  destruct (snapshot_line_ok g N k s HN Hs) as [(_ & _ & _ & Hwf) Hl].
  destruct (Hl _ _ Hm) as (Ha & Hty & Hte & Hms & Hd & _).
  destruct (Hwf _ _ Hm) as [_ Hc]. tauto.
Qed.

Lemma fields_stay_in_range_witness :
  (activity soldier = PASSIVE ∨ activity soldier = ACTIVE) ∧
  (type soldier = GENERAL ∨ type soldier = SOLDIER) ∧
  (testing soldier = FALSE ∨ testing soldier = TRUE) ∧
  (color soldier = RED ∨ color soldier = BLACK) ∧
  NO_MSG ≤ message soldier ≤ PROMOTE_MSG ∧
  (message soldier ≠ NO_MSG → LEFT ≤ message_direction soldier ≤ BROADCAST).
Proof.
  apply (fields_stay_in_range g0 3 0 (init 3) 1 soldier).
  - lia.
  - reflexivity.
  - reflexivity.
Defined.

(** X2: in every snapshot of every run the red machines are exactly the
    Generals; the firing test therefore succeeds exactly when no Soldier is
    left in the line. *)
Theorem red_exactly_the_generals (g : nat → Z → Z) (N : Z) (k : nat)
    (s : list machine) :
  1 ≤ N →
  snapshot g N k = Some s →
  (∀ j m, deref s j = Some m → (color m = RED ↔ type m = GENERAL)) ∧
  (fire N s = Some true ↔ ∀ j m, deref s j = Some m → type m = GENERAL).
Proof.
  intros HN Hs.
  destruct (snapshot_line_ok g N k s HN Hs) as [(Hlen & _) Hl].
  assert (Hrg : ∀ j m, deref s j = Some m →
            (color m = RED ↔ type m = GENERAL)).
  { intros j m Hm. by destruct (Hl _ _ Hm) as (_ & _ & _ & _ & _ & Hc & _). }
  split; [done |]. rewrite (fire_true_iff N s Hlen). unfold all_red.
  split; intros H j m Hm; apply (Hrg j m Hm); eauto.
Qed.

Lemma red_exactly_the_generals_witness :
  (∀ j m, deref squad3_step3 j = Some m →
     (color m = RED ↔ type m = GENERAL)) ∧
  (fire 3 squad3_step3 = Some true ↔
     ∀ j m, deref squad3_step3 j = Some m → type m = GENERAL).
Proof.
  apply (red_exactly_the_generals g0 3 3 squad3_step3).
  - lia.
  - vm_compute; reflexivity.
Defined.

(** X3: a General never relays: in every snapshot of every run the message
    of a General is none, Test, MidAck or Reset; MidTest and Promote are
    carried by Soldiers only. *)
Theorem general_never_relays (g : nat → Z → Z) (N : Z) (k : nat)
    (s : list machine) (j : Z) (m : machine) :
  1 ≤ N →
  snapshot g N k = Some s →
  deref s j = Some m →
  type m = GENERAL →
  message m = NO_MSG ∨ message m = TEST_MSG ∨ message m = MID_ACK_MSG ∨
  message m = RESET_MSG.
Proof.
  intros HN Hs Hm Ht.
  destruct (snapshot_line_ok g N k s HN Hs) as [_ Hl].
  destruct (Hl _ _ Hm) as (_ & _ & _ & Hms & _ & _ & Hg).
  specialize (Hg Ht). unfold_consts. lia.
Qed.

Lemma general_never_relays_witness :
  message (Machine ACTIVE 0 RED GENERAL RIGHT MID_ACK_MSG FALSE) = NO_MSG ∨
  message (Machine ACTIVE 0 RED GENERAL RIGHT MID_ACK_MSG FALSE) = TEST_MSG ∨
  message (Machine ACTIVE 0 RED GENERAL RIGHT MID_ACK_MSG FALSE)
    = MID_ACK_MSG ∨
  message (Machine ACTIVE 0 RED GENERAL RIGHT MID_ACK_MSG FALSE) = RESET_MSG.
Proof.
  apply (general_never_relays g0 3 3 squad3_step3 0).
  - lia.
  - vm_compute; reflexivity.
  - reflexivity.
  - reflexivity.
Defined.

(** X4: in every snapshot of every run every timer lies between -1 and 3,
    and the value -1 is held only by a Soldier that has just sent Promote or
    by a General. *)
Theorem timer_window (g : nat → Z → Z) (N : Z) (k : nat)
    (s : list machine) (j : Z) (m : machine) :
  1 ≤ N →
  snapshot g N k = Some s →
  deref s j = Some m →
  -1 ≤ timer m ≤ 3 ∧
  (timer m = -1 → type m = GENERAL ∨ message m = PROMOTE_MSG).
Proof.
  intros HN Hs Hm.
  destruct (snapshot_line_ok g N k s HN Hs) as [(_ & _ & _ & Hwf) _].
  destruct (Hwf _ _ Hm) as [[Hr Hp] _]. split; [done |].
  intros Ht. destruct (Z.eq_dec (type m) GENERAL); auto.
Qed.

Lemma timer_window_witness :
  -1 ≤ timer soldier ≤ 3 ∧
  (timer soldier = -1 → type soldier = GENERAL ∨ message soldier = PROMOTE_MSG).
Proof.
  apply (timer_window g0 3 0 (init 3) 1 soldier).
  - lia.
  - reflexivity.
  - reflexivity.
Defined.

(** ** A positive step cap *)

Lemma main_loop_capped g N fuel : ∀ k maxsteps t cur printed,
  well_formed N cur →
  0 ≤ maxsteps → (Z.to_nat maxsteps < fuel)%nat → t + maxsteps ≤ INT_MAX →
  (∃ t' p', main_loop g fuel k N maxsteps t cur printed = Fired t' p' ∧
     t ≤ t' < t + maxsteps ∧
     Z.of_nat (length p') = Z.of_nat (length printed) + (t' - t) + 1) ∨
  (∃ p', main_loop g fuel k N maxsteps t cur printed
           = Capped (t + maxsteps) p' ∧
     Z.of_nat (length p') = Z.of_nat (length printed) + maxsteps).
Proof.
  induction fuel as [|fuel IH]; intros k ms t cur printed Hwf Hms Hf Ht;
    [lia |]. simpl.
  destruct (loop_body_cases (g k) N ms t cur Hwf)
    as [[E0 E] | (Hne & cur' & _ & Hwf' & [[Hr E] | [(_ & Hmax & E) | (Hb & _ & E)]])];
    rewrite E.
  - right. exists printed. subst ms. split; [f_equal; lia | lia].
  - left. exists t, (cur' :: printed). split; [done |]. simpl. lia.
  - lia.
  - destruct (ms >? 0) eqn:E'; [| lia].
    destruct (IH (S k) (ms - 1) (t + 1) cur' (cur' :: printed))
      as [(t' & p' & H & Hr & Hl) | (p' & H & Hl)]; [done | lia | lia | lia | |].
    + left. exists t', p'. split; [done |]. simpl in Hl. lia.
    + right. exists p'. replace (t + ms) with (t + 1 + (ms - 1)) by lia.
      split; [done |]. simpl in Hl. lia.
Qed.

(** X6: with a cap [c > 0] (option [-t c]) the loop makes at most [c] steps:
    either the line fires at some step [t <= c] and [t] is reported, or the
    loop stops after exactly [c] steps without firing; it then reports
    [c + 1], one more than the number of steps made, having printed the
    initial snapshot and [c] others. *)
Theorem positive_cap_bounds_the_run (g : nat → Z → Z) (fuel : nat)
    (N c : Z) :
  1 ≤ N ≤ MAX_LENGTH →
  0 < c < INT_MAX →
  (Z.to_nat c < fuel)%nat →
  (∃ t printed, main_with g fuel true N c = Fired t printed ∧
     1 ≤ t ≤ c ∧ Z.of_nat (length printed) = t + 1) ∨
  (∃ printed, main_with g fuel true N c = Capped (c + 1) printed ∧
     Z.of_nat (length printed) = c + 1).
Proof.
  intros HN Hc Hf. unfold main_with.
  destruct ((N <=? 0) || (N >? MAX_LENGTH)) eqn:E; [lia |]. simpl.
  destruct (main_loop_capped g N fuel 0 c 1 (init N) [init N])
    as [(t' & p' & H & Hr & Hl) | (p' & H & Hl)];
    [apply init_well_formed; lia | lia | done | lia | |].
  - left. exists t', p'. split; [done |]. simpl in Hl. lia.
  - right. exists p'. rewrite Z.add_comm. split; [done |]. simpl in Hl. lia.
Qed.

Lemma positive_cap_bounds_the_run_witness :
  (∃ t printed, main_with g0 3 true 3 2 = Fired t printed ∧
     1 ≤ t ≤ 2 ∧ Z.of_nat (length printed) = t + 1) ∨
  (∃ printed, main_with g0 3 true 3 2 = Capped (2 + 1) printed ∧
     Z.of_nat (length printed) = 2 + 1).
Proof.
  apply (positive_cap_bounds_the_run g0 3 3 2).
  - unfold MAX_LENGTH; lia.
  - unfold INT_MAX; lia.
  - simpl; lia.
Defined.

(** ** How far a step looks *)




(** ** The initial line *)

(** X8: the initial line.  Whatever the allocated records held, the line has
    [N] machines, the passive General at the right end, the active testing
    General at position 0 when [N >= 2], and black active Soldiers between
    them; for [N = 1] the only machine is the passive right-end General,
    whose assignments come last. *)
Theorem initial_line (blank : machine) (N : Z) :
  1 ≤ N →
  init_from blank N = init N ∧
  Z.of_nat (length (init N)) = N ∧
  deref (init N) (N - 1) = Some right_general ∧
  (2 ≤ N → deref (init N) 0 = Some left_general) ∧
  (∀ j, 0 < j < N - 1 → deref (init N) j = Some soldier).
Proof.
  intros HN. split; [by apply init_from_blank |].
  split; [apply init_from_length; lia |].
  unfold init. split; [| split].
  - rewrite init_from_deref by done. case_decide; [| lia].
    by destruct (N - 1 =? N - 1) eqn:E; [| lia].
  - intros H2. rewrite init_from_deref by done. case_decide; [| lia].
    by destruct (0 =? N - 1) eqn:E; [lia |].
  - intros j Hj. rewrite init_from_deref by done. case_decide; [| lia].
    destruct (j =? N - 1) eqn:E; [lia |].
    by destruct (j =? 0) eqn:E'; [lia |].
Qed.

Lemma initial_line_witness :
  init_from soldier 1 = init 1 ∧
  Z.of_nat (length (init 1)) = 1 ∧
  deref (init 1) (1 - 1) = Some right_general ∧
  (2 ≤ 1 → deref (init 1) 0 = Some left_general) ∧
  (∀ j, 0 < j < 1 - 1 → deref (init 1) j = Some soldier).
Proof.
  apply (initial_line soldier 1). lia.
Defined.

(** ** The command line *)

Lemma parse_options_args_of atoi os :
  ∀ tail N0 t0 accn acct delay legends,
  parse_options atoi (args_of os ++ tail)
    (default N0 accn) (default t0 acct) delay legends =
  parse_options atoi tail
    (default N0 (last_n atoi os accn))
    (default t0 (last_t atoi os acct))
    (last_d atoi os delay) (count_l os legends).
Proof.
  induction os as [|o os IH]; intros tail N0 t0 accn acct delay legends;
    [done |].
  destruct o as [v | v | v |]; cbn.
  - apply (IH tail N0 t0 (Some (atoi v))).
  - apply (IH tail N0 t0 accn (Some (atoi v))).
  - apply IH.
  - apply IH.
Qed.

Lemma parse_options_end atoi tail N maxsteps delay legends :
  ends_options tail →
  parse_options atoi tail N maxsteps delay legends
    = Options N maxsteps delay legends.
Proof.
  destruct tail as [|a rest]; [done |]. cbn. by intros ->.
Qed.

(** X9: a command line made of the options [-n v], [-t v], [-d v] and [-l],
    followed by nothing or by an argument that does not begin with ['-'], is
    read from left to right: the last [-n] and the last [-t] give [N] and the
    cap (8 and -1 when absent), the argument after [-n], [-t] or [-d] is
    always taken as its value, whatever it looks like, and nothing from the
    first non-option argument on is looked at; the simulation then starts
    with these values. *)
Theorem options_read_left_to_right (atoi : string → Z) (g : nat → Z → Z)
    (fuel : nat) (alloc_ok : bool) (os : list option_arg)
    (tail : list string) :
  ends_options tail →
  parse_options atoi (args_of os ++ tail) DEFAULT_LENGTH (-1) 0 0 =
    Options (default DEFAULT_LENGTH (last_n atoi os None))
            (default (-1) (last_t atoi os None))
            (last_d atoi os 0) (count_l os 0) ∧
  fsquad atoi g fuel alloc_ok (args_of os ++ tail) =
    Ran (main g fuel alloc_ok (last_n atoi os None) (last_t atoi os None)).
Proof.
  intros Htail.
  pose proof (parse_options_args_of atoi os tail DEFAULT_LENGTH (-1)
                None None 0 0%nat) as H.
  cbn [default] in H. rewrite (parse_options_end atoi tail) in H by done.
  split; [done |]. unfold fsquad. by rewrite H.
Qed.

Lemma options_read_left_to_right_witness :
  fsquad (λ s, Z.of_nat (String.length s)) g0 5 true
    (args_of [Opt_n "xxxxx"; Opt_l; Opt_t "-h"; Opt_n "xx"] ++ ["3"; "-v"]) =
  Ran (main g0 5 true (Some 2) (Some 2)).
Proof.
  apply (options_read_left_to_right (λ s, Z.of_nat (String.length s)) g0 5 true
           [Opt_n "xxxxx"; Opt_l; Opt_t "-h"; Opt_n "xx"] ["3"; "-v"]).
  reflexivity.
Defined.

(** X10: after any such options, [-h] and [-v] end the program before the
    length is checked and whatever follows them; [-n], [-t] or [-d] as the
    last argument passes [argv[argc]], the null pointer, to [atoi]; and any
    other argument that begins with ['-'] ends the program as an unknown
    option.  No simulation runs in any of these cases. *)
Theorem options_that_stop_the_program (atoi : string → Z)
    (g : nat → Z → Z) (fuel : nat) (alloc_ok : bool)
    (os : list option_arg) (a : string) (rest : list string) :
  fsquad atoi g fuel alloc_ok (args_of os ++ "-h" :: rest)
    = Stopped (Help (count_l os 0)) ∧
  fsquad atoi g fuel alloc_ok (args_of os ++ "-v" :: rest)
    = Stopped (Version (count_l os 0)) ∧
  (a = "-n" ∨ a = "-t" ∨ a = "-d" →
   fsquad atoi g fuel alloc_ok (args_of os ++ [a])
     = Stopped (NullValue (count_l os 0))) ∧
  (is_option a = true →
   ¬ In a ["-h"; "-v"; "-n"; "-l"; "-t"; "-d"] →
   fsquad atoi g fuel alloc_ok (args_of os ++ a :: rest)
     = Stopped (Unknown a (count_l os 0))).
Proof.
  unfold fsquad.
  assert (H : ∀ tail, parse_options atoi (args_of os ++ tail)
                        DEFAULT_LENGTH (-1) 0 0 =
                      parse_options atoi tail
                        (default DEFAULT_LENGTH (last_n atoi os None))
                        (default (-1) (last_t atoi os None))
                        (last_d atoi os 0) (count_l os 0)).
  { intros tail.
    apply (parse_options_args_of atoi os tail DEFAULT_LENGTH (-1) None None). }
  rewrite !H. split; [done |]. split; [done |]. split.
  - by intros [-> | [-> | ->]].
  - intros Hopt Hnot. cbn. rewrite Hopt. cbn.
    repeat match goal with
    | |- context [String.eqb a ?l] =>
        destruct (String.eqb_spec a l) as [-> | _];
        [exfalso; apply Hnot; simpl; tauto |]
    end.
    done.
Qed.

Lemma options_that_stop_the_program_witness :
  fsquad (λ _, 0) g0 5 true (args_of [Opt_l; Opt_n "0"] ++ ["-t"])
    = Stopped (NullValue (count_l [Opt_l; Opt_n "0"] 0)) ∧
  fsquad (λ _, 0) g0 5 true (args_of [Opt_l; Opt_n "0"] ++ ["-x"; "-h"])
    = Stopped (Unknown "-x" (count_l [Opt_l; Opt_n "0"] 0)).
Proof.
  split.
  - apply (options_that_stop_the_program (λ _, 0) g0 5 true
             [Opt_l; Opt_n "0"] "-t" []). auto.
  - apply (options_that_stop_the_program (λ _, 0) g0 5 true
             [Opt_l; Opt_n "0"] "-x" ["-h"]); [reflexivity |].
    simpl. intros H. repeat (destruct H as [H | H]; [discriminate |]). done.
Defined.

(** ** What a run prints *)

Lemma main_loop_trace g N fuel : ∀ k maxsteps t cur printed,
  snapshot g N k = Some cur →
  length printed = S k →
  (∀ i, (i ≤ k)%nat → reverse printed !! i = snapshot g N i) →
  match main_loop g fuel k N maxsteps t cur printed with
  | Fired _ p | Capped _ p =>
      p ≠ [] ∧ ∀ i, (i < length p)%nat → reverse p !! i = snapshot g N i
  | _ => True
  end.
Proof.
  induction fuel as [|fuel IH]; intros k ms t cur printed Hk Hlen Hp;
    simpl; [done |].
  unfold loop_body. destruct (ms =? 0).
  { split; [by destruct printed |]. intros i Hi. apply Hp. lia. }
  destruct (step (g k) N cur) as [cur'|] eqn:Hs; [| done].
  assert (Hk' : snapshot g N (S k) = Some cur') by (simpl; by rewrite Hk).
  assert (Hp' : ∀ i, (i ≤ S k)%nat →
            reverse (cur' :: printed) !! i = snapshot g N i).
  { intros i Hi. rewrite reverse_cons.
    destruct (decide (i = S k)) as [-> | Hne].
    - rewrite Hk'. apply list_lookup_middle. by rewrite length_reverse.
    - rewrite lookup_app_l by (rewrite length_reverse; lia). apply Hp. lia. }
  destruct (fire N cur') as [[|]|]; [| | done].
  - split; [done |]. intros i Hi. apply Hp'. simpl in Hi. lia.
  - destruct (t =? INT_MAX); [done |].
    apply (IH (S k)); [done | simpl; lia | done].
Qed.

(** X11: a run that ends, by firing or by the cap, has printed the initial
    snapshot and the snapshot after every step, in order and without gaps:
    the [i]-th snapshot printed is the one reached after [i] steps. *)
Theorem run_prints_every_snapshot (g : nat → Z → Z) (fuel : nat)
    (alloc_ok : bool) (n_opt t_opt : option Z) (t : Z)
    (printed : list (list machine)) :
  main g fuel alloc_ok n_opt t_opt = Fired t printed ∨
  main g fuel alloc_ok n_opt t_opt = Capped t printed →
  printed ≠ [] ∧
  ∀ i, (i < length printed)%nat →
    reverse printed !! i = snapshot g (default DEFAULT_LENGTH n_opt) i.
Proof.
  unfold main, main_with. set (N := default DEFAULT_LENGTH n_opt).
  destruct ((N <=? 0) || (N >? MAX_LENGTH)); [by intros [|] |].
  destruct alloc_ok; simpl; [| by intros [|]].
  intros H.
  assert (Ht := main_loop_trace g N fuel 0 (default (-1) t_opt) 1 (init N)
                  [init N] eq_refl eq_refl).
  destruct H as [H | H]; rewrite H in Ht; apply Ht;
    intros i Hi; by replace i with 0%nat by lia.
Qed.

Lemma run_prints_every_snapshot_witness :
  printed3 ≠ [] ∧
  ∀ i, (i < length printed3)%nat →
    reverse printed3 !! i = snapshot g0 (default DEFAULT_LENGTH (Some 3)) i.
Proof.
  apply (run_prints_every_snapshot g0 10 true (Some 3) None 4 printed3).
  left. vm_compute; reflexivity.
Defined.

(** ** Lines that fire *)

Lemma main_with_same_outcome g g' fuel alloc_ok N maxsteps :
  same_outcome (main_with g fuel alloc_ok N maxsteps)
               (main_with g' fuel alloc_ok N maxsteps).
Proof.
  unfold main_with.
  destruct (_ || _); [done |]. destruct alloc_ok; [cbn | done].
  apply main_loop_same_outcome.
  - apply same_signals_refl.
  - constructor; [apply same_signals_refl | constructor].
Qed.

Lemma fired_at_same_outcome o o' :
  same_outcome o o' → fired_at o = fired_at o'.
Proof. destruct o, o'; simpl; try done. by intros [-> _]. Qed.

(** X12: every line of 1 to 16 machines fires, whatever the uninitialised
    [dir] holds, and the run reports the step listed in [firing_steps]: 1, 1,
    4, 7, 20, 25, 43, 50, 84, 93, 125, 136, 187, 200, 246, 261. *)
Theorem short_lines_fire (g : nat → Z → Z) (N : Z) :
  1 ≤ N ≤ 16 →
  fired_at (main g 300 true (Some N) None)
    = firing_steps !! Z.to_nat (N - 1).
Proof.
  intros HN. unfold main. simpl default.
  rewrite <- (fired_at_same_outcome _ _
                (main_with_same_outcome g0 g 300 true N (-1))).
  assert (H : Exists (λ n, N = n) (seqZ 1 16)).
  { apply Exists_exists. exists N. split; [| done].
    apply elem_of_seqZ. lia. }
  clear HN. cbv [seqZ seq Z.of_nat fmap list_fmap Z.add Pos.add Pos.succ
                 Z.to_nat Pos.to_nat Pos.iter_op Nat.add Init.Nat.add
                 Pos.of_succ_nat] in H.
  repeat (apply Exists_cons in H as [-> | H]; [vm_compute; reflexivity |]).
  by apply Exists_nil in H.
Qed.

Lemma short_lines_fire_witness :
  fired_at (main g0 300 true (Some 5) None) = firing_steps !! Z.to_nat (5 - 1).
Proof.
  apply (short_lines_fire g0 5). lia.
Defined.

(** ** What the cells show *)





(** [print_state] reaches every cell of a line of [N] machines. *)
Lemma print_cells_total cur n : ∀ i,
  0 ≤ i → i + Z.of_nat n ≤ Z.of_nat (length cur) →
  is_Some (print_cells cur n i).
Proof.
  induction n as [|n IH]; intros i Hi Hn; simpl; [eauto |].
  destruct (deref_is_Some cur i) as [m ->]; [lia |]. simpl.
  destruct (IH (i + 1)) as [r ->]; [lia | lia |]. simpl. eauto.
Qed.

Lemma print_state_total N cur :
  Z.of_nat (length cur) = N → is_Some (print_state N cur).
Proof.
  intros H. unfold print_state.
  destruct (print_cells_total cur (Z.to_nat N) 0) as [r ->]; [lia | lia |].
  simpl. eauto.
Qed.

End Fsquad.
